(** * A shallow embedding of the BFHL service (src/index.js)

    The service is one Express handler, [POST /bfhl], in front of a small
    numeric kernel ([generateFibonacci], [isPrime], [filterPrimes], [gcd],
    [calculateHCF], [calculateLCM]) and an AI delegate ([getAIResponse]).

    Conventions of the embedding.
    - A JavaScript number is a rational, or one of [NaN], [+Infinity],
      [-Infinity].  The results of [+], [*], [/] and of reading a numeric
      string are rounded as IEEE binary64 does (to nearest, ties to even,
      gradual underflow, overflow to an infinity); [%] is exact on doubles
      and needs no rounding.  The sign of zero is not represented.  Finite
      results are kept in lowest terms.
    - A JavaScript string is its sequence of UTF-16 code units.
    - A [throw] is the [Throw] outcome of [result]; only the [message] of the
      thrown error is kept, since that is all the handler reads.
    - The recursion of [gcd] consumes call stack: it takes the number of
      frames still available and throws the engine's [RangeError] when they
      are used up.
    - The text-generation service is a parameter, a function from the prompt
      to what the call does.  Console output is not represented. *)

From Stdlib Require Import ZArith NArith QArith Qreduction Znumtheory.
From Stdlib Require Qcanon.
From Stdlib Require Import List Bool Lia String Ascii DecimalString.
From Stdlib Require Import Permutation.
From Equations Require Import Equations.
Import ListNotations.

Set Warnings "-register-all".
Local Open Scope Z_scope.

(** ** Strings *)

Definition jsstring := list N.

Definition str (s : string) : jsstring :=
  map N_of_ascii (list_ascii_of_string s).

Definition jsstring_eqb (a b : jsstring) : bool :=
  if list_eq_dec N.eq_dec a b then true else false.

(** [WhiteSpace] and [LineTerminator] of ECMAScript: what [trim] removes and
    what [\s] matches. *)
Definition is_space (c : N) : bool :=
  existsb (N.eqb c)
    [9; 10; 11; 12; 13; 32; 160; 5760; 8232; 8233; 8239; 8287; 12288; 65279]%N
  || ((8192 <=? c) && (c <=? 8202))%N.

Fixpoint trimStart (s : jsstring) : jsstring :=
  match s with
  | c :: s' => if is_space c then trimStart s' else s
  | [] => []
  end.

Definition trim (s : jsstring) : jsstring :=
  rev (trimStart (rev (trimStart s))).

(** ** Numbers *)

Inductive number : Type :=
| Fin (q : Q)
| NaN
| PInf
| NInf.

Definition int (z : Z) : number := Fin (inject_Z z).

Definition inf (negative : bool) : number := if negative then NInf else PInf.

Definition Qsign (q : Q) : Z := Z.sgn (Qnum q).

(** *** Rounding to binary64 *)

(** [n / d] rounded to the nearest integer, ties to the even one, for
    [0 <= n] and [0 < d]. *)
Definition round_half_even (n d : Z) : Z :=
  let f := n / d in
  match 2 * (n mod d) ?= d with
  | Lt => f
  | Gt => f + 1
  | Eq => if Z.even f then f else f + 1
  end.

(** The integer [e] with [2 ^ e <= n / d < 2 ^ (e + 1)], for positive [n]
    and [d]. *)
Definition floor_log2 (n d : Z) : Z :=
  let e := Z.log2 n - Z.log2 d in
  if (if 0 <=? e then 2 ^ e * d <=? n else d <=? 2 ^ (- e) * n)
  then e else e - 1.

(** The double nearest to a rational: 53 significant bits, the exponent of
    the last bit not below -1074, and an infinity from [2 ^ 1024] on. *)
Definition round64 (q : Q) : number :=
  let q := Qred q in
  let n := Z.abs (Qnum q) in
  let d := Zpos (Qden q) in
  let s := Z.sgn (Qnum q) in
  if n =? 0 then Fin (inject_Z 0)
  else
    let k := Z.max (floor_log2 n d) (-1022) - 52 in
    if 0 <=? k then
      let m := round_half_even n (d * 2 ^ k) in
      if 2 ^ 1024 <=? m * 2 ^ k then inf (s <? 0)
      else Fin (inject_Z (s * m * 2 ^ k))
    else
      let m := round_half_even (n * 2 ^ (- k)) d in
      Fin (Qred (s * m # Z.to_pos (2 ^ (- k)))).

(** [a + b] *)
Definition js_add (a b : number) : number :=
  match a, b with
  | NaN, _ | _, NaN => NaN
  | PInf, NInf | NInf, PInf => NaN
  | PInf, _ | _, PInf => PInf
  | NInf, _ | _, NInf => NInf
  | Fin x, Fin y => round64 (x + y)
  end.

(** [a * b] *)
Definition js_mul (a b : number) : number :=
  match a, b with
  | NaN, _ | _, NaN => NaN
  | Fin x, Fin y => round64 (x * y)
  | Fin x, PInf | PInf, Fin x =>
      match Qsign x with 0 => NaN | Zpos _ => PInf | Zneg _ => NInf end
  | Fin x, NInf | NInf, Fin x =>
      match Qsign x with 0 => NaN | Zpos _ => NInf | Zneg _ => PInf end
  | PInf, PInf | NInf, NInf => PInf
  | PInf, NInf | NInf, PInf => NInf
  end.

(** [a / b] *)
Definition js_div (a b : number) : number :=
  match a, b with
  | NaN, _ | _, NaN => NaN
  | Fin x, Fin y =>
      match Qsign y with
      | 0 => match Qsign x with 0 => NaN | Zpos _ => PInf | Zneg _ => NInf end
      | _ => round64 (x / y)
      end
  | Fin _, _ => Fin 0
  | PInf, Fin y => match Qsign y with Zneg _ => NInf | _ => PInf end
  | NInf, Fin y => match Qsign y with Zneg _ => PInf | _ => NInf end
  | _, _ => NaN
  end.

(** [a % b]: for finite operands and a non-zero divisor the result is
    [a - b * trunc (a / b)], which over the common denominator is a
    truncated remainder of integers; it takes the sign of the dividend. *)
Definition Qrem (x y : Q) : Q :=
  Z.rem (Qnum x * Zpos (Qden y)) (Qnum y * Zpos (Qden x))
    # (Qden x * Qden y).

Definition js_rem (a b : number) : number :=
  match a, b with
  | NaN, _ | _, NaN => NaN
  | PInf, _ | NInf, _ => NaN
  | Fin x, Fin y => match Qsign y with 0 => NaN | _ => Fin (Qred (Qrem x y)) end
  | Fin x, _ => Fin x
  end.

(** [a === 0] on numbers *)
Definition is_zero (a : number) : bool :=
  match a with Fin x => Qnum x =? 0 | _ => false end.

(** [Number.isInteger] on numbers *)
Definition number_is_integer (a : number) : bool :=
  match a with
  | Fin x => Z.rem (Qnum x) (Zpos (Qden x)) =? 0
  | _ => false
  end.

(** The integer a number denotes, for the numbers that [Number.isInteger]
    accepts. *)
Definition to_Z (a : number) : Z :=
  match a with Fin x => Z.quot (Qnum x) (Zpos (Qden x)) | _ => 0 end.

(** ** Values *)

Inductive value : Type :=
| VUndefined
| VNull
| VBool (b : bool)
| VNum (n : number)
| VStr (s : jsstring)
| VArr (elems : list value)
| VObj (fields : list (jsstring * value)).

Definition VInt (z : Z) : value := VNum (int z).

(** ** Outcomes *)

Inductive result (A : Type) : Type :=
| Ret (a : A)
| Throw (message : jsstring).
Arguments Ret {A} a.
Arguments Throw {A} message.

Definition bind {A B} (r : result A) (k : A -> result B) : result B :=
  match r with
  | Ret a => k a
  | Throw m => Throw m
  end.

Notation "x <- r ;; k" := (bind r (fun x => k))
  (at level 61, r at next level, right associativity).


(** [Array.isArray(v)] *)
Definition isArray (v : value) : bool :=
  match v with VArr _ => true | _ => false end.

(** [v === 0] *)
Definition strict_eq_zero (v : value) : bool :=
  match v with VNum n => is_zero n | _ => false end.

(** ** Coercion of a value to a number

    The arithmetic operators apply [ToNumber] to their operands.  The body of
    a request is parsed JSON, so an object is a plain object and an array a
    plain array. *)

Definition digit_of (c : N) : option Z :=
  if ((48 <=? c) && (c <=? 57))%N then Some (Z.of_N c - 48)
  else if ((97 <=? c) && (c <=? 102))%N then Some (Z.of_N c - 87)
  else if ((65 <=? c) && (c <=? 70))%N then Some (Z.of_N c - 55)
  else None.

Fixpoint digits_value (base acc : Z) (s : jsstring) : option Z :=
  match s with
  | [] => Some acc
  | c :: s' =>
      match digit_of c with
      | Some d =>
          if d <? base then digits_value base (acc * base + d) s' else None
      | None => None
      end
  end.

Definition radix_literal (base : Z) (s : jsstring) : number :=
  match s with
  | [] => NaN
  | _ => match digits_value base 0 s with
         | Some v => round64 (inject_Z v)
         | None => NaN
         end
  end.

Fixpoint span_digits (s : jsstring) : jsstring * jsstring :=
  match s with
  | c :: s' =>
      if ((48 <=? c) && (c <=? 57))%N
      then let (d, r) := span_digits s' in (c :: d, r)
      else ([], s)
  | [] => ([], [])
  end.

Definition strip_sign (s : jsstring) : bool * jsstring :=
  match s with
  | 43%N :: r => (false, r)
  | 45%N :: r => (true, r)
  | _ => (false, s)
  end.

Definition scale10 (m e : Z) : Q :=
  if 0 <=? e then inject_Z (m * 10 ^ e)
  else Qred (m # Z.to_pos (10 ^ (- e))).

Definition exponent_part (s : jsstring) : option Z :=
  match s with
  | [] => Some 0
  | c :: r =>
      if ((c =? 101) || (c =? 69))%N then
        let (neg, r') := strip_sign r in
        match r' with
        | [] => None
        | _ => option_map (fun e => if neg then - e else e)
                 (digits_value 10 0 r')
        end
      else None
  end.

Definition decimal_literal (s : jsstring) : number :=
  let (ip, r1) := span_digits s in
  let '(fp, r2, ok) :=
    match r1 with
    | 46%N :: r =>
        let (fp, r2) := span_digits r in
        (fp, r2, negb (Nat.eqb (List.length ip + List.length fp) 0))
    | _ => ([], r1, negb (Nat.eqb (List.length ip) 0))
    end in
  if ok then
    match digits_value 10 0 (ip ++ fp), exponent_part r2 with
    | Some m, Some e => round64 (scale10 m (e - Z.of_nat (List.length fp)))
    | _, _ => NaN
    end
  else NaN.

Definition signed_decimal (s : jsstring) : number :=
  let (neg, r) := strip_sign s in
  if jsstring_eqb r (str "Infinity") then inf neg
  else match decimal_literal r with
       | Fin q => Fin (if neg then Qred (- q) else q)
       | PInf => inf neg
       | n => n
       end.

(** [StringToNumber]: the empty or blank string is 0, then the literals
    [0x..], [0o..], [0b..], an optionally signed [Infinity] or decimal
    literal, each rounded to the nearest double, and [NaN] for everything
    else. *)
Definition StringToNumber (s : jsstring) : number :=
  let t := trim s in
  match t with
  | [] => int 0
  | 48%N :: x :: r =>
      if ((x =? 120) || (x =? 88))%N then radix_literal 16 r
      else if ((x =? 111) || (x =? 79))%N then radix_literal 8 r
      else if ((x =? 98) || (x =? 66))%N then radix_literal 2 r
      else signed_decimal t
  | _ => signed_decimal t
  end.

(** A plain object converts to a primitive through the inherited
    [toString], unless an own (hence non-callable) [toString] property hides
    it: then the conversion is a [TypeError]. *)
Fixpoint to_primitive_throws (v : value) : bool :=
  match v with
  | VObj fields =>
      existsb (fun kv => jsstring_eqb (fst kv) (str "toString")) fields
  | VArr elems => existsb to_primitive_throws elems
  | _ => false
  end.

(** The number read back from the text that [Array.prototype.join] writes
    for one element. *)
Fixpoint elem_text_number (x : value) : number :=
  match x with
  | VUndefined | VNull => int 0
  | VBool _ => NaN
  | VNum n => n
  | VStr s => StringToNumber s
  | VObj _ => NaN
  | VArr [] => int 0
  | VArr [y] => elem_text_number y
  | VArr _ => NaN
  end.

Definition ToNumber (v : value) : result number :=
  if to_primitive_throws v
  then Throw (str "Cannot convert object to primitive value")
  else Ret match v with
           | VUndefined => NaN
           | VNull => int 0
           | VBool b => int (if b then 1 else 0)
           | VNum n => n
           | VStr s => StringToNumber s
           | VObj _ => NaN
           | VArr _ => elem_text_number v
           end.

(** [a % b] and [a * b] on values *)
Definition rem_values (a b : value) : result number :=
  x <- ToNumber a ;; y <- ToNumber b ;; Ret (js_rem x y).

Definition mul_values (a b : value) : result number :=
  x <- ToNumber a ;; y <- ToNumber b ;; Ret (js_mul x y).

Definition div_values (a b : value) : result number :=
  x <- ToNumber a ;; y <- ToNumber b ;; Ret (js_div x y).

(** The guard [Number.isInteger(v)] as a view: the integer when it holds. *)
Definition as_integer (v : value) : option Z :=
  match v with
  | VNum n => if number_is_integer n then Some (to_Z n) else None
  | _ => None
  end.

(** ** Arrays *)

(** [arr[i]] read as a number operand: a missing element is [undefined],
    which [+] coerces to [NaN]. *)
Definition get (arr : list number) (i : Z) : number :=
  if i <? 0 then NaN else nth (Z.to_nat i) arr NaN.

(** [arr.filter(callback)] *)
Fixpoint array_filter (callback : value -> result bool) (arr : list value)
  : result (list value) :=
  match arr with
  | [] => Ret []
  | x :: rest =>
      keep <- callback x ;;
      kept <- array_filter callback rest ;;
      Ret (if keep then x :: kept else kept)
  end.

(** [arr.reduce(callback)], with no initial value: the first element is the
    initial accumulator and the callback runs from the second element on. *)
Fixpoint reduce_from (callback : value -> value -> result value)
    (acc : value) (rest : list value) : result value :=
  match rest with
  | [] => Ret acc
  | x :: rest' => acc' <- callback acc x ;; reduce_from callback acc' rest'
  end.

Definition array_reduce (callback : value -> value -> result value)
    (arr : list value) : result value :=
  match arr with
  | [] => Throw (str "Reduce of empty array with no initial value")
  | first :: rest => reduce_from callback first rest
  end.

(** ** Messages of the errors thrown *)

Module Msg.
Definition fibonacci_input := str "Input must be a non-negative integer".
Definition not_array := str "Input must be an array".
Definition not_integers := str "All elements must be integers".
Definition empty_array := str "Input must be a non-empty array".
Definition not_positive := str "All elements must be positive integers".
Definition stack_overflow := str "Maximum call stack size exceeded".
Definition question := str "Question must be a non-empty string".
Definition no_response := str "No response from AI".
Definition empty_response := str "Empty response from AI".
Definition no_answer := str "Could not extract answer".
Definition ai_failed := str "AI API request failed".
Definition no_key :=
  str "Request must contain exactly one of: fibonacci, prime, lcm, hcf, AI".
Definition many_keys :=
  str "Request must contain exactly one key, found multiple".
Definition invalid_key := str "Invalid key provided".
Definition keys_of_nullish :=
  str "Cannot convert undefined or null to object".
End Msg.

(** ** The numeric kernel *)

(** The loop of [generateFibonacci]:
    [for (let i = 2; i < n; i++) fib.push(fib[i - 1] + fib[i - 2])]. *)
Equations? fib_loop (n i : Z) (fib : list number) : list number
  by wf (Z.to_nat (n - i)) lt :=
  fib_loop n i fib with Z_lt_dec i n := {
    | left _ =>
        fib_loop n (i + 1) (fib ++ [js_add (get fib (i - 1)) (get fib (i - 2))])
    | right _ => fib
  }.
Proof. lia. Qed.

Definition generateFibonacci (n : value) : result value :=
  match as_integer n with
  | None => Throw Msg.fibonacci_input
  | Some n =>
      if n <? 0 then Throw Msg.fibonacci_input
      else if n =? 0 then Ret (VArr [])
      else if n =? 1 then Ret (VArr [VInt 0])
      else Ret (VArr (map VNum (fib_loop n 2 [int 0; int 1])))
  end.

(** The loop of [isPrime]:
    [for (let i = 3; i <= Math.sqrt(num); i += 2) if (num % i === 0) return false].
    For integers, [i <= Math.sqrt(num)] is [i <= Z.sqrt num]. *)
Equations? isPrime_loop (num i : Z) : bool
  by wf (Z.to_nat (Z.sqrt num + 1 - i)) lt :=
  isPrime_loop num i with Z_le_dec i (Z.sqrt num) := {
    | left _ =>
        if Z.rem num i =? 0 then false else isPrime_loop num (i + 2)
    | right _ => true
  }.
Proof. lia. Qed.

(** [isPrime] is only ever applied to a value that passed
    [Number.isInteger], so its argument is an integer. *)
Definition isPrime (num : Z) : bool :=
  if num <? 2 then false
  else if num =? 2 then true
  else if Z.rem num 2 =? 0 then false
  else isPrime_loop num 3.

(** The callback of [arr.filter] in [filterPrimes]. *)
Definition prime_callback (num : value) : result bool :=
  match as_integer num with
  | None => Throw Msg.not_integers
  | Some z => Ret (isPrime z)
  end.

Definition filterPrimes (arr : value) : result value :=
  match arr with
  | VArr elems =>
      kept <- array_filter prime_callback elems ;; Ret (VArr kept)
  | _ => Throw Msg.not_array
  end.

(** [gcd(a, b) = b === 0 ? a : gcd(b, a % b)], with [stack] frames left. *)
Fixpoint gcd (stack : nat) (a b : value) : result value :=
  match stack with
  | O => Throw Msg.stack_overflow
  | S stack' =>
      if strict_eq_zero b then Ret a
      else r <- rem_values a b ;; gcd stack' b (VNum r)
  end.

(** What the callbacks' guard [!Number.isInteger(num) || num <= 0] lets
    through. *)
Definition positive_integer (num : value) : bool :=
  match as_integer num with
  | Some z => negb (z <=? 0)
  | None => false
  end.

(** The callback of [arr.reduce] in [calculateHCF]. *)
Definition hcf_callback (stack : nat) (acc num : value) : result value :=
  if negb (positive_integer num) then Throw Msg.not_positive
  else gcd stack acc num.

Definition calculateHCF (stack : nat) (arr : value) : result value :=
  match arr with
  | VArr elems =>
      if Nat.eqb (List.length elems) 0 then Throw Msg.empty_array
      else array_reduce (hcf_callback stack) elems
  | _ => Throw Msg.empty_array
  end.

(** [const lcm = (a, b) => (a * b) / gcd(a, b)] *)
Definition lcm (stack : nat) (a b : value) : result value :=
  p <- mul_values a b ;;
  g <- gcd stack a b ;;
  q <- div_values (VNum p) g ;;
  Ret (VNum q).

(** The callback of [arr.reduce] in [calculateLCM]. *)
Definition lcm_callback (stack : nat) (acc num : value) : result value :=
  if negb (positive_integer num) then Throw Msg.not_positive
  else lcm stack acc num.

Definition calculateLCM (stack : nat) (arr : value) : result value :=
  match arr with
  | VArr elems =>
      if Nat.eqb (List.length elems) 0 then Throw Msg.empty_array
      else array_reduce (lcm_callback stack) elems
  | _ => Throw Msg.empty_array
  end.

Definition ints (zs : list Z) : value := VArr (map VInt zs).

(** ** The AI delegate *)

(** What one call of the text-generation capability can do: reject, resolve
    without a [response], resolve with a [response] whose [text()] throws, or
    resolve with text. *)
Inductive gen_outcome : Type :=
| GenRejects (message : jsstring)
| GenNoResponse
| GenTextThrows (message : jsstring)
| GenText (text : jsstring).

Definition capability := jsstring -> gen_outcome.

(** [text.replace(/\*\*/g, '')] *)
Fixpoint remove_bold (s : jsstring) : jsstring :=
  match s with
  | c :: r =>
      match r with
      | d :: r' =>
          if ((c =? 42) && (d =? 42))%N then remove_bold r'
          else c :: remove_bold r
      | [] => [c]
      end
  | [] => []
  end.

(** [text.replace(/c/g, '')] for a single character [c] *)
Definition remove_char (c : N) (s : jsstring) : jsstring :=
  filter (fun x => negb (x =? c)%N) s.

(** The punctuation class of line 134: full stop, comma, exclamation and
    question mark, semicolon, colon, apostrophe, double quote, and the two
    round brackets. *)
Definition is_punct (c : N) : bool :=
  existsb (N.eqb c) [46; 44; 33; 63; 59; 58; 39; 34; 40; 41]%N.

Definition remove_punct (s : jsstring) : jsstring :=
  filter (fun x => negb (is_punct x)) s.

(** [text.split(/[\s\n\r]+/)]: the pieces between maximal runs of white
    space; [piece] is the piece being read, [in_run] tells that the previous
    character was white space. *)
Fixpoint split_go (in_run : bool) (piece s : jsstring) : list jsstring :=
  match s with
  | [] => [piece]
  | c :: s' =>
      if is_space c then
        if in_run then split_go true [] s'
        else piece :: split_go true [] s'
      else split_go false (piece ++ [c]) s'
  end.

Definition split (s : jsstring) : list jsstring := split_go false [] s.

(** Lines 130-136: the cleaning pipeline; [[0]] of an array is [undefined]
    when there is no such element. *)
Definition clean (text : jsstring) : option jsstring :=
  nth_error
    (split (trim (remove_punct (remove_char 96 (remove_char 42
                                                  (remove_bold text))))))
    0.

Definition is_empty (s : jsstring) : bool :=
  match s with [] => true | _ => false end.

(** Lines 120-145: from the raw text to the answer. *)
Definition normalize (text : jsstring) : result jsstring :=
  if is_empty text || is_empty (trim text) then Throw Msg.empty_response
  else match clean text with
       | None => Throw Msg.no_answer
       | Some word =>
           if is_empty word then Throw Msg.no_answer else Ret word
       end.

Definition prompt_of (question : jsstring) : jsstring :=
  str "You must answer with only ONE single word. Question: " ++ question
  ++ [10; 10]%N ++ str "Answer (one word only):".

(** What the handler and its callees do besides computing a response: the
    kernel functions they enter and the prompts they send. *)
Inductive event : Type :=
| Enter (function : string) (argument : value)
| Generate (prompt : jsstring).

(** The body of the [try] block of [getAIResponse]. *)
Definition ask (generate : capability) (question : jsstring)
  : result jsstring :=
  match generate (prompt_of question) with
  | GenRejects m => Throw m
  | GenNoResponse => Throw Msg.no_response
  | GenTextThrows m => Throw m
  | GenText text => normalize text
  end.

Definition getAIResponse (generate : capability) (question : value)
  : list event * result value :=
  match question with
  | VStr q =>
      if is_empty (trim q) then ([], Throw Msg.question)
      else ([Generate (prompt_of q)],
            match ask generate q with
            | Ret word => Ret (VStr word)
            | Throw _ => Throw Msg.ai_failed
            end)
  | _ => ([], Throw Msg.question)
  end.

(** ** The dispatcher: [app.post('/bfhl', ...)] *)

Record response : Type := {
  status : Z;
  is_success : bool;
  official_email : option jsstring;
  data : option value;
  error : option jsstring
}.

Definition validKeys : list jsstring :=
  map str ["fibonacci"; "prime"; "lcm"; "hcf"; "AI"]%string.

(** [validKeys.includes(key)] *)
Definition includes (keys : list jsstring) (key : jsstring) : bool :=
  existsb (jsstring_eqb key) keys.

Definition index_keys (n : nat) : list jsstring :=
  map (fun i => str (NilEmpty.string_of_uint (Nat.to_uint i))) (seq 0 n).

(** [Object.keys(body)]: the fields of an object are kept in insertion
    order with distinct keys, as [JSON.parse] builds them.  (JavaScript lists
    integer-like keys first; no recognized key is one.) *)
Definition object_keys (body : value) : result (list jsstring) :=
  match body with
  | VUndefined | VNull => Throw Msg.keys_of_nullish
  | VBool _ | VNum _ => Ret []
  | VStr s => Ret (index_keys (List.length s))
  | VArr elems => Ret (index_keys (List.length elems))
  | VObj fields => Ret (map fst fields)
  end.

(** [body.key], for a key that is no index and no inherited property. *)
Definition get_prop (body : value) (key : jsstring) : value :=
  match body with
  | VObj fields =>
      match find (fun kv => jsstring_eqb (fst kv) key) fields with
      | Some kv => snd kv
      | None => VUndefined
      end
  | _ => VUndefined
  end.

Section Handler.

(** [process.env.OFFICIAL_EMAIL], the call stack left for the kernel, and
    the text-generation capability. *)
Variable OFFICIAL_EMAIL : option jsstring.
Variable stack : nat.
Variable generate : capability.

Definition failure (message : jsstring) : response :=
  {| status := 400; is_success := false; official_email := OFFICIAL_EMAIL;
     data := None; error := Some message |}.

Definition success (d : value) : response :=
  {| status := 200; is_success := true; official_email := OFFICIAL_EMAIL;
     data := Some d; error := None |}.

(** The [switch]: the events and the outcome of the selected operation;
    [None] is the [default] case. *)
Definition run_operation (body : value) (key : jsstring)
  : option (list event * result value) :=
  if jsstring_eqb key (str "fibonacci") then
    let arg := get_prop body (str "fibonacci") in
    Some ([Enter "generateFibonacci" arg], generateFibonacci arg)
  else if jsstring_eqb key (str "prime") then
    let arg := get_prop body (str "prime") in
    Some ([Enter "filterPrimes" arg], filterPrimes arg)
  else if jsstring_eqb key (str "lcm") then
    let arg := get_prop body (str "lcm") in
    Some ([Enter "calculateLCM" arg], calculateLCM stack arg)
  else if jsstring_eqb key (str "hcf") then
    let arg := get_prop body (str "hcf") in
    Some ([Enter "calculateHCF" arg], calculateHCF stack arg)
  else if jsstring_eqb key (str "AI") then
    let arg := get_prop body (str "AI") in
    let (events, r) := getAIResponse generate arg in
    Some (Enter "getAIResponse" arg :: events, r)
  else None.

(** The [try] block: what it sends, or the message of what it throws. *)
Definition try_block (body : value) : list event * result response :=
  match object_keys body with
  | Throw m => ([], Throw m)
  | Ret keys =>
      match filter (includes validKeys) keys with
      | [] => ([], Ret (failure Msg.no_key))
      | _ :: _ :: _ => ([], Ret (failure Msg.many_keys))
      | [key] =>
          match run_operation body key with
          | Some (events, r) => (events, d <- r ;; Ret (success d))
          | None => ([], Ret (failure Msg.invalid_key))
          end
      end
  end.

Definition handler (body : value) : list event * response :=
  let (events, r) := try_block body in
  (events, match r with Ret resp => resp | Throw m => failure m end).

End Handler.

Definition obj (fields : list (string * value)) : value :=
  VObj (map (fun kv => (str (fst kv), snd kv)) fields).

(** ** Reference definitions, in the words of the specification *)

(** [v] is the integer [z]: a finite number equal to it. *)
Definition is_integer_value (v : value) (z : Z) : Prop :=
  exists q, v = VNum (Fin q) /\ q == inject_Z z.

(** The Fibonacci numbers, 0, 1, 1, 2, ... *)
Fixpoint fibonacci (k : nat) : Z :=
  match k with
  | O => 0
  | S k' => match k' with
            | O => 1
            | S k'' => fibonacci k' + fibonacci k''
            end
  end.

(** The first [k] of them, as numbers. *)
Definition fibs (k : nat) : list number :=
  map (fun j => int (fibonacci j)) (seq 0 k).

(** The same numbers, two at a time: [(fibonacci k, fibonacci (k + 1))]. *)
Fixpoint fib_pair (k : nat) : Z * Z :=
  match k with
  | O => (0, 1)
  | S k' => let (a, b) := fib_pair k' in (b, a + b)
  end.

(** [k] rounds of [fib.push(fib[i - 1] + fib[i - 2])], [i] being the
    length of [fib]. *)
Fixpoint fib_push (k : nat) (fib : list number) : list number :=
  match k with
  | O => fib
  | S k' =>
      fib_push k'
        (fib ++ [js_add (get fib (Z.of_nat (List.length fib) - 1))
                        (get fib (Z.of_nat (List.length fib) - 2))])
  end.

(** The array that [generateFibonacci] builds for the count [n]. *)
Definition fib_terms (n : nat) : list number :=
  firstn n (fib_push (n - 2) [int 0; int 1]).

(** The product of a list of integers. *)
Definition product (xs : list Z) : Z := fold_right Z.mul 1 xs.

(** The recursive Euclidean algorithm on integers, [gcd(a, 0) = a]. *)
Equations? euclid (a b : Z) : Z by wf (Z.abs_nat b) lt :=
  euclid a b with Z.eq_dec b 0 := {
    | left _ => a
    | right _ => euclid b (Z.rem a b)
  }.
Proof.
  pose proof (Z.rem_bound_abs a b ltac:(assumption)). lia.
Qed.

(** Call-stack frames that suffice for [gcd(a, b)], whatever [a] is. *)
Definition frames_for (b : Z) : Z := 2 * Z.log2 (Z.abs b) + 3.

(** The step of the least-common-multiple fold, [(a, b) -> a * b / gcd(a, b)]. *)
Definition lcm_step (a b : Z) : Z := a * b / euclid a b.

(** Every product [a * b] that the least-common-multiple fold forms, from
    the accumulator [acc] over [xs], is at most 2^53 in absolute value: a
    double holds it exactly. *)
Fixpoint products_fit (acc : Z) (xs : list Z) : bool :=
  match xs with
  | [] => true
  | z :: xs' =>
      (Z.abs (acc * z) <=? 2 ^ 53) && products_fit (lcm_step acc z) xs'
  end.

(** Numbers over a common denominator: [x] is [A / D]. *)
Definition over (D : positive) (x : Q) (A : Z) : Prop := x == A # D.

(** The first white-space-delimited token of a text. *)
Fixpoint until_space (s : jsstring) : jsstring :=
  match s with
  | c :: s' => if is_space c then [] else c :: until_space s'
  | [] => []
  end.

Definition first_token (s : jsstring) : jsstring :=
  until_space (trimStart s).

(** The markers and punctuation that normalization strips. *)
Definition is_marker (c : N) : bool :=
  (c =? 42)%N || (c =? 96)%N || is_punct c.

Definition strip_markers (s : jsstring) : jsstring :=
  filter (fun c => negb (is_marker c)) s.

(** * Properties *)

(** ** Numbers and integers *)

Lemma Qred_inject_Z z : Qred (inject_Z z) = inject_Z z.
Proof.
  apply Qcanon.Qred_identity. simpl. apply Z.gcd_1_r.
Qed.

Lemma Qred_int q z : q == inject_Z z -> Qred q = inject_Z z.
Proof.
  intros H. rewrite <- Qred_inject_Z. now apply Qred_complete.
Qed.

(** *** Rounding is the identity on the integers up to 2^53 *)

Lemma round64_eq x y : x == y -> round64 x = round64 y.
Proof.
  intros H. unfold round64. now rewrite (Qred_complete x y H).
Qed.

Lemma round_half_even_1 n : round_half_even n 1 = n.
Proof.
  unfold round_half_even. now rewrite Z.div_1_r, Z.mod_1_r.
Qed.

Lemma floor_log2_int n : 0 < n -> floor_log2 n 1 = Z.log2 n.
Proof.
  intros Hn. unfold floor_log2. change (Z.log2 1) with 0.
  rewrite Z.sub_0_r. pose proof (Z.log2_nonneg n).
  pose proof (Z.log2_spec n Hn).
  destruct (Z.leb_spec 0 (Z.log2 n)); [|lia].
  destruct (Z.leb_spec (2 ^ Z.log2 n * 1) n); [reflexivity | lia].
Qed.

Lemma pow2_53_small : 2 ^ 53 < 2 ^ 1024.
Proof. apply Z.pow_lt_mono_r; lia. Qed.

Lemma round64_int z :
  Z.abs z <= 2 ^ 53 -> round64 (inject_Z z) = Fin (inject_Z z).
Proof.
  intros Hz. unfold round64. rewrite Qred_inject_Z.
  cbn [Qnum Qden inject_Z].
  destruct (Z.eqb_spec (Z.abs z) 0) as [E|NE].
  { replace z with 0 by lia. reflexivity. }
  rewrite floor_log2_int by lia.
  pose proof (Z.log2_spec (Z.abs z) ltac:(lia)) as [Hlo Hhi].
  pose proof (Z.log2_nonneg (Z.abs z)) as He.
  assert (He53 : Z.log2 (Z.abs z) <= 53).
  { change 53 with (Z.log2 (2 ^ 53)). now apply Z.log2_le_mono. }
  set (e := Z.log2 (Z.abs z)) in *.
  rewrite Z.max_l by lia.
  assert (Hsgn : Z.sgn z * Z.abs z = z) by (destruct z; reflexivity).
  destruct (Z.leb_spec 0 (e - 52)) as [Hk|Hk].
  - assert (e = 52 \/ e = 53) as [E|E] by lia; rewrite E in *.
    + change (52 - 52) with 0. change (2 ^ 0) with 1.
      rewrite !Z.mul_1_r, round_half_even_1.
      pose proof pow2_53_small.
      destruct (Z.leb_spec (2 ^ 1024) (Z.abs z)); [lia|].
      now rewrite Hsgn.
    + assert (Z.abs z = 2 ^ 53) as Habs by lia.
      assert (z = 2 ^ 53 \/ z = - 2 ^ 53) as [-> | ->] by lia;
        vm_compute; reflexivity.
  - rewrite round_half_even_1. f_equal. apply Qred_int.
    assert (0 < 2 ^ (- (e - 52))) by (apply Z.pow_pos_nonneg; lia).
    unfold Qeq. cbn [Qnum Qden inject_Z].
    rewrite Z2Pos.id by assumption.
    rewrite Z.mul_1_r, Z.mul_assoc, Hsgn. reflexivity.
Qed.

Lemma js_add_int a b :
  Z.abs (a + b) <= 2 ^ 53 -> js_add (int a) (int b) = int (a + b).
Proof.
  intros H. unfold js_add, int.
  rewrite (round64_eq _ (inject_Z (a + b))); [now apply round64_int|].
  unfold Qeq, Qplus, inject_Z; simpl. lia.
Qed.

Lemma js_mul_int a b :
  Z.abs (a * b) <= 2 ^ 53 -> js_mul (int a) (int b) = int (a * b).
Proof.
  intros H. unfold js_mul, int.
  rewrite (round64_eq _ (inject_Z (a * b))); [now apply round64_int|].
  unfold Qeq, Qmult, inject_Z; simpl. lia.
Qed.

Lemma js_rem_int a b : b <> 0 -> js_rem (int a) (int b) = int (Z.rem a b).
Proof.
  intros Hb. unfold js_rem, int, Qsign. cbn [Qnum inject_Z].
  assert (E : Fin (Qred (Qrem (inject_Z a) (inject_Z b)))
              = Fin (inject_Z (Z.rem a b))).
  { f_equal. apply Qred_int. unfold Qeq, Qrem.
    cbn [Qnum Qden inject_Z]. now rewrite !Z.mul_1_r. }
  destruct (Z.sgn b) eqn:Sg; [lia | exact E | exact E].
Qed.

Lemma js_div_int a b :
  b <> 0 -> (b | a) -> Z.abs (a / b) <= 2 ^ 53 ->
  js_div (int a) (int b) = int (a / b).
Proof.
  intros Hb [k ->]. rewrite Z.div_mul by assumption. intros Hk.
  unfold js_div, int, Qsign. cbn [Qnum inject_Z].
  assert (E : round64 (inject_Z (k * b) / inject_Z b) = Fin (inject_Z k)).
  { rewrite (round64_eq _ (inject_Z k)); [now apply round64_int|].
    unfold Qeq, Qdiv, Qmult, Qinv.
    destruct b; try congruence; cbn [Qnum Qden inject_Z]; lia. }
  destruct (Z.sgn b) eqn:Sg; [lia | exact E | exact E].
Qed.

Lemma as_integer_VInt z : as_integer (VInt z) = Some z.
Proof.
  unfold as_integer, VInt, int. simpl.
  now rewrite Z.rem_1_r, Z.quot_1_r.
Qed.

Lemma as_integer_spec v z : as_integer v = Some z <-> is_integer_value v z.
Proof.
  unfold is_integer_value. split.
  - destruct v as [| | |[q| | |]| | |]; simpl; try discriminate.
    destruct (Z.eqb_spec (Z.rem (Qnum q) (Zpos (Qden q))) 0) as [E|]; [|discriminate].
    intros [= <-]. exists q. split; [reflexivity|].
    unfold Qeq, inject_Z; simpl.
    pose proof (Z.quot_rem' (Qnum q) (Zpos (Qden q))). lia.
  - intros (q & -> & Hq). unfold Qeq, inject_Z in Hq; simpl in *.
    rewrite Z.mul_1_r in Hq. rewrite Hq.
    rewrite Z.rem_mul, Z.quot_mul by discriminate. reflexivity.
Qed.

Lemma ToNumber_VNum n : ToNumber (VNum n) = Ret n.
Proof. reflexivity. Qed.

(** ** generateFibonacci *)

Lemma fib_loop_step n i fib :
  fib_loop n i fib =
  if i <? n
  then fib_loop n (i + 1) (fib ++ [js_add (get fib (i - 1)) (get fib (i - 2))])
  else fib.
Proof.
  rewrite fib_loop_equation_1.
  destruct (Z_lt_dec i n), (Z.ltb_spec i n); try lia; reflexivity.
Qed.

(** The loop pushes one term per round until the array has [n] elements. *)
Lemma fib_loop_push k : forall n fib,
  Z.of_nat k = n - Z.of_nat (List.length fib) ->
  fib_loop n (Z.of_nat (List.length fib)) fib = fib_push k fib.
Proof.
  induction k as [|k IH]; intros n fib Hk; rewrite fib_loop_step.
  - destruct (Z.ltb_spec (Z.of_nat (List.length fib)) n); [lia | reflexivity].
  - destruct (Z.ltb_spec (Z.of_nat (List.length fib)) n); [|lia].
    cbn [fib_push].
    set (fib' := fib ++ _).
    replace (Z.of_nat (List.length fib) + 1)
      with (Z.of_nat (List.length fib')).
    + apply IH. subst fib'. rewrite length_app. cbn [List.length]. lia.
    + subst fib'. rewrite length_app. cbn [List.length]. lia.
Qed.

Lemma fib_push_app k : forall fib,
  exists t, fib_push k fib = fib ++ t /\ List.length t = k.
Proof.
  induction k as [|k IH]; intros fib.
  - exists []. now rewrite app_nil_r.
  - cbn [fib_push]. destruct (IH (fib ++ [js_add
        (get fib (Z.of_nat (List.length fib) - 1))
        (get fib (Z.of_nat (List.length fib) - 2))])) as (t & E & Ht).
    eexists (_ :: t). rewrite E, <- app_assoc. split; [reflexivity|].
    cbn [List.length]. now rewrite Ht.
Qed.

Lemma fib_push_length k fib :
  List.length (fib_push k fib) = (List.length fib + k)%nat.
Proof.
  destruct (fib_push_app k fib) as (t & -> & Ht).
  now rewrite length_app, Ht.
Qed.

Lemma fib_push_add k1 : forall k2 fib,
  fib_push (k1 + k2) fib = fib_push k2 (fib_push k1 fib).
Proof.
  induction k1 as [|k1 IH]; intros k2 fib; [reflexivity|].
  cbn [Nat.add fib_push]. apply IH.
Qed.

Lemma get_nth fib j : get fib (Z.of_nat j) = nth j fib NaN.
Proof.
  unfold get. destruct (Z.ltb_spec (Z.of_nat j) 0); [lia|].
  now rewrite Nat2Z.id.
Qed.

(** Every pushed term is the sum, as [+] computes it, of the two terms
    before it. *)
Lemma fib_push_recurrence k : forall fib j,
  (2 <= List.length fib)%nat ->
  (List.length fib <= j < List.length fib + k)%nat ->
  nth j (fib_push k fib) NaN
  = js_add (nth (j - 1) (fib_push k fib) NaN)
           (nth (j - 2) (fib_push k fib) NaN).
Proof.
  induction k as [|k IH]; intros fib j Hlen Hj; [lia|].
  cbn [fib_push].
  set (x := js_add (get fib (Z.of_nat (List.length fib) - 1))
                   (get fib (Z.of_nat (List.length fib) - 2))).
  destruct (Nat.eq_dec j (List.length fib)) as [->|Hne].
  - destruct (fib_push_app k (fib ++ [x])) as (t & -> & _).
    rewrite <- !app_assoc.
    rewrite app_nth2, Nat.sub_diag by lia. cbn [app nth].
    rewrite !app_nth1 by lia. subst x.
    replace (Z.of_nat (List.length fib) - 1)
      with (Z.of_nat (List.length fib - 1)) by lia.
    replace (Z.of_nat (List.length fib) - 2)
      with (Z.of_nat (List.length fib - 2)) by lia.
    now rewrite !get_nth.
  - apply IH; rewrite length_app; cbn [List.length]; lia.
Qed.

Lemma generateFibonacci_value v n :
  is_integer_value v n -> 0 <= n ->
  generateFibonacci v = Ret (VArr (map VNum (fib_terms (Z.to_nat n)))).
Proof.
  intros Hv Hn. apply as_integer_spec in Hv.
  unfold generateFibonacci. rewrite Hv.
  destruct (Z.ltb_spec n 0); [lia|].
  destruct (Z.eqb_spec n 0) as [->|]; [reflexivity|].
  destruct (Z.eqb_spec n 1) as [->|]; [reflexivity|].
  do 3 f_equal. unfold fib_terms.
  change 2 with (Z.of_nat (List.length [int 0; int 1])).
  rewrite (fib_loop_push (Z.to_nat n - 2)) by (cbn [List.length]; lia).
  symmetry. apply firstn_all2. rewrite fib_push_length.
  cbn [List.length]. lia.
Qed.

Lemma fib_terms_full n :
  (2 <= n)%nat -> fib_terms n = fib_push (n - 2) [int 0; int 1].
Proof.
  intros Hn. unfold fib_terms. apply firstn_all2.
  rewrite fib_push_length. cbn [List.length]. lia.
Qed.

Lemma fib_terms_length n : List.length (fib_terms n) = n.
Proof.
  destruct n as [|[|n]]; [reflexivity | reflexivity |].
  rewrite fib_terms_full, fib_push_length by lia. cbn [List.length]. lia.
Qed.

Lemma fib_terms_start n :
  (1 <= n -> nth 0 (fib_terms n) NaN = int 0)%nat /\
  (2 <= n -> nth 1 (fib_terms n) NaN = int 1)%nat.
Proof.
  destruct n as [|[|n]]; [split; lia | split; [reflexivity | lia] |].
  rewrite fib_terms_full by lia.
  destruct (fib_push_app (S (S n) - 2) [int 0; int 1]) as (t & -> & _).
  split; reflexivity.
Qed.

Lemma fib_terms_recurrence n i :
  (2 <= i < n)%nat ->
  nth i (fib_terms n) NaN
  = js_add (nth (i - 1) (fib_terms n) NaN) (nth (i - 2) (fib_terms n) NaN).
Proof.
  intros Hi. rewrite fib_terms_full by lia.
  apply fib_push_recurrence; cbn [List.length]; lia.
Qed.

(** *** The terms that a double holds exactly *)

Lemma fib_pair_spec k : fib_pair k = (fibonacci k, fibonacci (S k)).
Proof.
  induction k as [|k IH]; [reflexivity|].
  cbn [fib_pair]. rewrite IH. f_equal.
  change (fibonacci (S (S k))) with (fibonacci (S k) + fibonacci k). lia.
Qed.

Lemma fib_pair_fst k : fst (fib_pair k) = fibonacci k.
Proof. rewrite fib_pair_spec. reflexivity. Qed.

Lemma fibonacci_nonneg k : 0 <= fibonacci k /\ 0 <= fibonacci (S k).
Proof.
  induction k as [|k [H1 H2]]; [cbn; lia|]. split; [exact H2|].
  change (fibonacci (S (S k))) with (fibonacci (S k) + fibonacci k). lia.
Qed.

Lemma fibonacci_le k j : (k <= j)%nat -> fibonacci k <= fibonacci j.
Proof.
  induction 1 as [|j _ IH]; [lia|].
  destruct j as [|j]; [cbn in *; lia|].
  change (fibonacci (S (S j))) with (fibonacci (S j) + fibonacci j).
  pose proof (fibonacci_nonneg j). lia.
Qed.

Lemma fibonacci_small k : (k <= 78)%nat -> Z.abs (fibonacci k) <= 2 ^ 53.
Proof.
  intros Hk. pose proof (fibonacci_le k 78 Hk) as H.
  pose proof (fibonacci_nonneg k) as [H0 _].
  rewrite <- (fib_pair_fst 78) in H.
  assert (E : fst (fib_pair 78) = 8944394323791464)
    by (vm_compute; reflexivity).
  rewrite E in H. rewrite Z.abs_eq by assumption.
  assert (8944394323791464 <= 2 ^ 53) by (vm_compute; discriminate). lia.
Qed.

Lemma get_fibs k j :
  (j < k)%nat -> get (fibs k) (Z.of_nat j) = int (fibonacci j).
Proof.
  intros Hj. unfold get, fibs.
  destruct (Z.ltb_spec (Z.of_nat j) 0) as [|_]; [lia|].
  rewrite Nat2Z.id.
  rewrite (nth_indep _ NaN (int (fibonacci 0)))
    by now rewrite length_map, length_seq.
  change (int (fibonacci 0)) with ((fun j => int (fibonacci j)) 0%nat).
  rewrite map_nth, seq_nth by assumption. reflexivity.
Qed.

Lemma fibs_S k : fibs (S k) = fibs k ++ [int (fibonacci k)].
Proof.
  unfold fibs. rewrite seq_S, map_app. reflexivity.
Qed.

Lemma fibs_length k : List.length (fibs k) = k.
Proof. unfold fibs. now rewrite length_map, length_seq. Qed.

(** Up to the count 79 no sum is rounded: the array holds the Fibonacci
    numbers. *)
Lemma fib_push_fibs d : forall i,
  (2 <= i)%nat -> (i + d <= 79)%nat ->
  fib_push d (fibs i) = fibs (i + d).
Proof.
  induction d as [|d IH]; intros i Hi Hd.
  - now rewrite Nat.add_0_r.
  - cbn [fib_push]. rewrite fibs_length.
    replace (Z.of_nat i - 1) with (Z.of_nat (i - 1)) by lia.
    replace (Z.of_nat i - 2) with (Z.of_nat (i - 2)) by lia.
    rewrite !get_fibs by lia.
    assert (E : fibonacci (i - 1) + fibonacci (i - 2) = fibonacci i).
    { destruct i as [|[|i]]; try lia.
      replace (S (S i) - 1)%nat with (S i) by lia.
      replace (S (S i) - 2)%nat with i by lia.
      reflexivity. }
    rewrite js_add_int by (rewrite E; apply fibonacci_small; lia).
    rewrite E, <- fibs_S.
    replace (i + S d)%nat with (S i + d)%nat by lia.
    apply IH; lia.
Qed.

Lemma fib_terms_exact n : (n <= 79)%nat -> fib_terms n = fibs n.
Proof.
  intros Hn. destruct n as [|[|n]]; [reflexivity | reflexivity |].
  rewrite fib_terms_full by lia.
  change [int 0; int 1] with (fibs 2).
  rewrite fib_push_fibs by lia. f_equal. lia.
Qed.

Lemma nth_fibonacci k i :
  (i < k)%nat -> nth i (map fibonacci (seq 0 k)) 0 = fibonacci i.
Proof.
  intros Hi.
  change (nth i (map fibonacci (seq 0 k)) 0)
    with (nth i (map fibonacci (seq 0 k)) (fibonacci 0%nat)).
  rewrite map_nth, seq_nth by assumption. reflexivity.
Qed.

(** C4, as stated, fails from the count 80 on: the term of index 79 is the
    sum of the two before it rounded to a double, 14472334024676220, one
    less than their sum as integers. *)
Lemma generateFibonacci_80_rounds :
  exists terms,
    generateFibonacci (VInt 80) = Ret (VArr terms) /\
    nth 77 terms VNull = VInt 5527939700884757 /\
    nth 78 terms VNull = VInt 8944394323791464 /\
    nth 79 terms VNull = VInt 14472334024676220 /\
    14472334024676220 <> 5527939700884757 + 8944394323791464.
Proof.
  exists (map VNum (fib_terms 80)). split.
  - apply (generateFibonacci_value (VInt 80) 80); [|lia].
    exists (inject_Z 80). split; reflexivity.
  - repeat split; try (vm_compute; reflexivity). discriminate.
Qed.

(** C4, amended.  For every integer [n >= 0] that an array can have as its
    length (arrays hold fewer than 2^32 elements), [generateFibonacci(n)]
    returns exactly [n] numbers that begin 0, 1 and in which every term from
    the third on is the sum, as [+] computes it on doubles, of the two
    before it; up to [n = 79] no sum is rounded, so the terms are integers
    and the recurrence holds among integers; [n = 0] gives the empty array
    and [n = 1] gives [[0]]; every input that is not a non-negative integer
    makes it throw 'Input must be a non-negative integer'. *)
Theorem generateFibonacci_spec :
  (forall v n, is_integer_value v n -> 0 <= n < 2 ^ 32 ->
     exists terms : list number,
       generateFibonacci v = Ret (VArr (map VNum terms)) /\
       List.length terms = Z.to_nat n /\
       (1 <= n -> nth 0 terms NaN = int 0) /\
       (2 <= n -> nth 1 terms NaN = int 1) /\
       (forall i, (2 <= i < Z.to_nat n)%nat ->
          nth i terms NaN
          = js_add (nth (i - 1) terms NaN) (nth (i - 2) terms NaN)) /\
       (n <= 79 ->
        exists zs : list Z,
          terms = map int zs /\
          forall i, (2 <= i < Z.to_nat n)%nat ->
            nth i zs 0 = nth (i - 1) zs 0 + nth (i - 2) zs 0)) /\
  generateFibonacci (VInt 0) = Ret (ints []) /\
  generateFibonacci (VInt 1) = Ret (ints [0]) /\
  (forall v, (forall n, 0 <= n -> ~ is_integer_value v n) ->
     generateFibonacci v = Throw Msg.fibonacci_input).
Proof.
  split; [|split; [reflexivity|split; [reflexivity|]]].
  - intros v n Hv Hn. exists (fib_terms (Z.to_nat n)).
    split; [apply generateFibonacci_value; [exact Hv | lia]|].
    split; [apply fib_terms_length|].
    destruct (fib_terms_start (Z.to_nat n)) as [S0 S1].
    split; [intros; apply S0; lia|]. split; [intros; apply S1; lia|].
    split; [intros i Hi; now apply fib_terms_recurrence|].
    intros H79. exists (map fibonacci (seq 0 (Z.to_nat n))). split.
    + rewrite fib_terms_exact by lia. unfold fibs. now rewrite map_map.
    + intros i Hi. rewrite !nth_fibonacci by lia.
      destruct i as [|[|i]]; try lia.
      replace (S (S i) - 1)%nat with (S i) by lia.
      replace (S (S i) - 2)%nat with i by lia.
      reflexivity.
  - intros v Hv. unfold generateFibonacci.
    destruct (as_integer v) as [n|] eqn:E; [|reflexivity].
    destruct (Z.ltb_spec n 0); [reflexivity|].
    apply as_integer_spec in E. now apply Hv in E.
Qed.

Lemma generateFibonacci_spec_witness :
  exists terms : list number,
    generateFibonacci (VInt 5) = Ret (VArr (map VNum terms)) /\
    List.length terms = Z.to_nat 5 /\
    (1 <= 5 -> nth 0 terms NaN = int 0) /\
    (2 <= 5 -> nth 1 terms NaN = int 1) /\
    (forall i, (2 <= i < Z.to_nat 5)%nat ->
       nth i terms NaN
       = js_add (nth (i - 1) terms NaN) (nth (i - 2) terms NaN)) /\
    (5 <= 79 ->
     exists zs : list Z,
       terms = map int zs /\
       forall i, (2 <= i < Z.to_nat 5)%nat ->
         nth i zs 0 = nth (i - 1) zs 0 + nth (i - 2) zs 0).
Proof.
  apply (proj1 generateFibonacci_spec (VInt 5) 5).
  - exists (inject_Z 5). split; reflexivity.
  - split; [discriminate | reflexivity].
Defined.

(** ** isPrime and filterPrimes *)

Lemma isPrime_loop_step num i :
  isPrime_loop num i =
  if i <=? Z.sqrt num
  then if Z.rem num i =? 0 then false else isPrime_loop num (i + 2)
  else true.
Proof.
  rewrite isPrime_loop_equation_1.
  destruct (Z_le_dec i (Z.sqrt num)), (Z.leb_spec i (Z.sqrt num));
    try lia; reflexivity.
Qed.

(** The loop answers [true] exactly when none of [i], [i + 2], [i + 4], ...
    up to the square root divides [num]. *)
Lemma isPrime_loop_spec num n : forall i,
  Z.sqrt num + 1 - i <= Z.of_nat n ->
  isPrime_loop num i = true <->
  (forall k, 0 <= k -> i + 2 * k <= Z.sqrt num -> Z.rem num (i + 2 * k) <> 0).
Proof.
  induction n as [|n IH]; intros i Hn; rewrite isPrime_loop_step;
    destruct (Z.leb_spec i (Z.sqrt num)) as [Hi|Hi]; try lia;
    try (split; [intros _ k Hk Hle; lia | reflexivity]).
  destruct (Z.eqb_spec (Z.rem num i) 0) as [E|E].
  - split; [discriminate|]. intros H. specialize (H 0).
    rewrite Z.mul_0_r, Z.add_0_r in H. now apply H in E; [|lia|lia].
  - rewrite IH by lia. split; intros H k Hk Hle.
    + destruct (Z.eq_dec k 0) as [->|].
      * now rewrite Z.mul_0_r, Z.add_0_r.
      * replace (i + 2 * k) with (i + 2 + 2 * (k - 1)) by lia.
        apply H; lia.
    + replace (i + 2 + 2 * k) with (i + 2 * (k + 1)) by lia.
      apply H; lia.
Qed.

Lemma isPrime_spec x :
  isPrime x = true <->
  2 <= x /\ forall d, 2 <= d <= Z.sqrt x -> ~ (d | x).
Proof.
  unfold isPrime.
  destruct (Z.ltb_spec x 2) as [Hlt|Hge].
  { split; [discriminate | lia]. }
  destruct (Z.eqb_spec x 2) as [->|Hne].
  { split; [|reflexivity]. intros _. split; [lia|].
    change (Z.sqrt 2) with 1. lia. }
  destruct (Z.eqb_spec (Z.rem x 2) 0) as [Ev|Od].
  - split; [discriminate|]. intros [_ H]. exfalso.
    apply (H 2).
    + split; [lia|]. apply Z.sqrt_le_square; try lia.
      pose proof (Z.quot_rem' x 2). lia.
    + apply Z.rem_divide; [lia | exact Ev].
  - rewrite (isPrime_loop_spec x (Z.to_nat (Z.sqrt x))) by lia.
    split.
    + intros H. split; [lia|]. intros d [Hd Hs] Hdiv.
      destruct (Z.eq_dec (Z.rem d 2) 0) as [Ed|Od'].
      * apply Od. apply Z.rem_divide; [lia|].
        apply Z.divide_trans with d; [|exact Hdiv].
        apply Z.rem_divide; [lia | exact Ed].
      * pose proof (Z.quot_rem' d 2).
        pose proof (Z.rem_bound_pos d 2 ltac:(lia) ltac:(lia)).
        apply (H (Z.quot d 2 - 1)); try lia.
        replace (3 + 2 * (Z.quot d 2 - 1)) with d by lia.
        apply Z.rem_divide; [lia | exact Hdiv].
    + intros [_ H] k Hk Hle Hrem.
      apply (H (3 + 2 * k)); [lia|].
      apply Z.rem_divide; [lia | exact Hrem].
Qed.

(** So [isPrime] decides primality. *)
Lemma isPrime_prime x : isPrime x = true <-> Z.prime x.
Proof.
  rewrite isPrime_spec. unfold Z.prime.
  pose proof (Z.sqrt_nonneg x) as Hnn. split.
  - intros [Hx H]. split; [lia|]. intros n Hn [m Hm].
    pose proof (Z.sqrt_spec x ltac:(lia)) as Hs. cbv zeta in Hs.
    destruct (Z_le_gt_dec n (Z.sqrt x)) as [Hle|Hgt].
    + apply (H n); [lia | now exists m].
    + assert (0 < m) by nia.
      assert (2 <= m) by nia.
      apply (H m); [|exists n; lia].
      split; [assumption|].
      destruct (Z_le_gt_dec m (Z.sqrt x)) as [|Hm']; [assumption|].
      assert ((Z.sqrt x + 1) * (Z.sqrt x + 1) <= m * n)
        by (apply Z.mul_le_mono_nonneg; lia).
      lia.
  - intros [Hx H]. split; [lia|]. intros d Hd.
    pose proof (Z.sqrt_spec x ltac:(lia)) as Hs. cbv zeta in Hs.
    apply H. split; [lia|].
    assert (d * d <= Z.sqrt x * Z.sqrt x)
      by (apply Z.mul_le_mono_nonneg; lia).
    assert (d * 2 <= d * d) by (apply Z.mul_le_mono_nonneg_l; lia).
    destruct (Z.eq_dec x 2) as [->|]; [change (Z.sqrt 2) with 1 in *; lia|].
    destruct (Z.eq_dec x 3) as [->|]; [change (Z.sqrt 3) with 1 in *; lia|].
    lia.
Qed.

Lemma filterPrimes_unfold elems :
  filterPrimes (VArr elems) =
  kept <- array_filter prime_callback elems ;; Ret (VArr kept).
Proof. reflexivity. Qed.

Lemma array_filter_ints zs :
  array_filter prime_callback (map VInt zs)
  = Ret (map VInt (filter isPrime zs)).
Proof.
  induction zs as [|z zs IH]; [reflexivity|].
  cbn [map array_filter filter]. unfold prime_callback at 1.
  rewrite as_integer_VInt. cbn [bind]. rewrite IH. cbn [bind].
  destruct (isPrime z); reflexivity.
Qed.

Lemma array_filter_throws elems :
  Exists (fun e => as_integer e = None) elems ->
  array_filter prime_callback elems = Throw Msg.not_integers.
Proof.
  induction 1 as [e rest He | e rest _ IH]; cbn [array_filter].
  - unfold prime_callback. now rewrite He.
  - unfold prime_callback at 1.
    destruct (as_integer e); [|reflexivity].
    cbn [bind]. now rewrite IH.
Qed.

(** C5.  [isPrime(x)] is true exactly when [x >= 2] and no [d] with
    [2 <= d <= floor(sqrt(x))] divides [x]; [filterPrimes] returns the
    elements that satisfy [isPrime], in their order and with their
    repetitions, and throws when its input is not an array or has an element
    that is not an integer. *)
Theorem isPrime_filterPrimes_spec :
  (forall x, isPrime x = true <->
             2 <= x /\ forall d, 2 <= d <= Z.sqrt x -> ~ (d | x)) /\
  (forall zs, filterPrimes (ints zs) = Ret (ints (filter isPrime zs))) /\
  filterPrimes (ints [1; 2; 3; 4; 5; 6; 7]) = Ret (ints [2; 3; 5; 7]) /\
  filterPrimes (ints [2; 2; 3]) = Ret (ints [2; 2; 3]) /\
  (forall v, isArray v = false -> filterPrimes v = Throw Msg.not_array) /\
  (forall elems,
     Exists (fun e => forall z, ~ is_integer_value e z) elems ->
     filterPrimes (VArr elems) = Throw Msg.not_integers).
Proof.
  split; [exact isPrime_spec|].
  split.
  { intros zs. unfold ints. rewrite filterPrimes_unfold, array_filter_ints.
    reflexivity. }
  split; [reflexivity|]. split; [reflexivity|]. split.
  - intros [| | | | |elems|] H; try reflexivity. discriminate.
  - intros elems H. rewrite filterPrimes_unfold, array_filter_throws;
      [reflexivity|].
    eapply Exists_impl; [|exact H]. intros e He. cbv beta in He.
    destruct (as_integer e) as [z|] eqn:E; [|reflexivity].
    apply as_integer_spec in E. now apply He in E.
Qed.

Lemma isPrime_filterPrimes_spec_witness :
  isPrime 97 = true /\
  filterPrimes (VArr [VInt 2; VStr (str "3")]) = Throw Msg.not_integers.
Proof.
  split.
  - apply (proj1 isPrime_filterPrimes_spec 97). split; [lia|].
    change (Z.sqrt 97) with 9. intros d Hd [c Hc].
    assert (d = 2 \/ d = 3 \/ d = 4 \/ d = 5 \/ d = 6 \/ d = 7 \/ d = 8
            \/ d = 9) as Hcases by lia.
    decompose [or] Hcases; subst d; lia.
  - apply (proj2 (proj2 (proj2 (proj2 (proj2 isPrime_filterPrimes_spec))))).
    apply Exists_cons_tl, Exists_cons_hd.
    intros z (q & Hq & _). discriminate Hq.
Defined.

(** ** gcd *)

Lemma euclid_step a b :
  euclid a b = if b =? 0 then a else euclid b (Z.rem a b).
Proof.
  rewrite euclid_equation_1.
  destruct (Z.eq_dec b 0), (Z.eqb_spec b 0); try lia; reflexivity.
Qed.

(** Euclid's algorithm computes the greatest common divisor, up to sign. *)
Lemma euclid_gcd_abs n : forall a b,
  (Z.abs_nat b < n)%nat -> Z.abs (euclid a b) = Z.gcd a b.
Proof.
  induction n as [|n IH]; intros a b Hn; [lia|].
  rewrite euclid_step. destruct (Z.eqb_spec b 0) as [->|Hb].
  - now rewrite Z.gcd_0_r.
  - pose proof (Z.rem_bound_abs a b Hb).
    rewrite IH by lia.
    rewrite Z.gcd_comm, Z.gcd_rem by assumption. apply Z.gcd_comm.
Qed.

Lemma euclid_abs a b : Z.abs (euclid a b) = Z.gcd a b.
Proof. apply (euclid_gcd_abs (S (Z.abs_nat b))). lia. Qed.

Lemma euclid_nonneg n : forall a b,
  (Z.abs_nat b < n)%nat -> 0 <= a -> 0 <= b -> 0 <= euclid a b.
Proof.
  induction n as [|n IH]; intros a b Hn Ha Hb; [lia|].
  rewrite euclid_step. destruct (Z.eqb_spec b 0) as [->|Hb0]; [exact Ha|].
  pose proof (Z.rem_bound_pos a b ltac:(lia) ltac:(lia)).
  apply IH; lia.
Qed.

Lemma euclid_gcd a b : 0 <= a -> 0 <= b -> euclid a b = Z.gcd a b.
Proof.
  intros Ha Hb. rewrite <- euclid_abs. symmetry. apply Z.abs_eq.
  apply (euclid_nonneg (S (Z.abs_nat b))); lia.
Qed.

Lemma euclid_nonzero a b : b <> 0 -> euclid a b <> 0.
Proof.
  intros Hb E. pose proof (euclid_abs a b) as H. rewrite E in H.
  symmetry in H. apply Z.gcd_eq_0_r in H. contradiction.
Qed.

Lemma euclid_divide_l a b : (euclid a b | a).
Proof.
  apply Z.divide_abs_l. rewrite euclid_abs. apply Z.gcd_divide_l.
Qed.

Lemma over_zero D x A : over D x A -> (Qnum x =? 0) = (A =? 0).
Proof.
  unfold over, Qeq. cbn [Qnum Qden]. intros H.
  destruct (Z.eqb_spec (Qnum x) 0), (Z.eqb_spec A 0); try reflexivity; nia.
Qed.

Lemma over_Qrem D x y A B :
  over D x A -> over D y B -> B <> 0 ->
  over D (Qred (Qrem x y)) (Z.rem A B).
Proof.
  unfold over. intros Hx Hy HB. rewrite Qred_correct.
  unfold Qeq, Qrem in *. cbn [Qnum Qden] in *.
  rewrite Pos2Z.inj_mul.
  set (p := Qnum x) in *. set (q := Zpos (Qden x)) in *.
  set (r := Qnum y) in *. set (s := Zpos (Qden y)) in *.
  set (d := Zpos D) in *.
  assert (0 < q /\ 0 < s /\ 0 < d) as (Hq & Hs & Hd) by (subst q s d; lia).
  assert (Hr : r <> 0) by nia.
  apply (Z.mul_cancel_l _ _ d); [lia|].
  transitivity (Z.rem (d * (p * s)) (d * (r * q)) * d).
  - rewrite Z.mul_rem_distr_l by nia. ring.
  - replace (d * (p * s)) with (A * (q * s)) by nia.
    replace (d * (r * q)) with (B * (q * s)) by nia.
    rewrite Z.mul_rem_distr_r by nia. ring.
Qed.

Lemma gcd_unfold stack a b :
  gcd (S stack) a b =
  if strict_eq_zero b then Ret a
  else r <- rem_values a b ;; gcd stack b (VNum r).
Proof. reflexivity. Qed.

Lemma js_rem_over D x y A B :
  over D x A -> over D y B -> B <> 0 ->
  js_rem (Fin x) (Fin y) = Fin (Qred (Qrem x y)).
Proof.
  intros Hx Hy HB. unfold js_rem, Qsign.
  pose proof (over_zero _ _ _ Hy) as Hz.
  destruct (Z.eqb_spec B 0); [contradiction|].
  destruct (Z.eqb_spec (Qnum y) 0); [discriminate|].
  destruct (Z.sgn (Qnum y)) eqn:S; [lia| |]; reflexivity.
Qed.

(** One remainder step at least halves the larger operand. *)
Lemma rem_halves A B :
  B <> 0 -> Z.abs B <= Z.abs A -> 2 * Z.abs (Z.rem A B) <= Z.abs A.
Proof.
  intros HB Hle. rewrite <- Z.rem_abs by assumption.
  pose proof (Z.quot_rem' (Z.abs A) (Z.abs B)).
  pose proof (Z.rem_bound_pos (Z.abs A) (Z.abs B) ltac:(lia) ltac:(lia)).
  pose proof (Z.quot_str_pos (Z.abs A) (Z.abs B) ltac:(lia)).
  nia.
Qed.

(** [gcd] on finite numbers, once the second operand is the smaller one:
    the frames it needs grow with the logarithm of the operands. *)
Lemma gcd_ordered D stack : forall x y A B,
  over D x A -> over D y B -> Qred y = y ->
  Z.abs B <= Z.abs A ->
  Z.log2 (Z.abs A) + Z.log2 (Z.abs B) + 2 <= Z.of_nat stack ->
  exists g, gcd stack (VNum (Fin x)) (VNum (Fin y)) = Ret (VNum (Fin g))
            /\ over D g (euclid A B) /\ (B <> 0 -> Qred g = g).
Proof.
  induction stack as [|stack IH]; intros x y A B Hx Hy Cy Hle Hst.
  { pose proof (Z.log2_nonneg (Z.abs A)).
    pose proof (Z.log2_nonneg (Z.abs B)). lia. }
  rewrite gcd_unfold, euclid_step. cbn [strict_eq_zero is_zero].
  rewrite (over_zero _ _ _ Hy).
  destruct (Z.eqb_spec B 0) as [->|HB].
  { exists x. repeat split; [exact Hx | congruence]. }
  unfold rem_values. rewrite !ToNumber_VNum. cbn [bind].
  rewrite (js_rem_over D x y A B) by assumption.
  pose proof (over_Qrem D x y A B Hx Hy HB) as Hr.
  pose proof (Z.rem_bound_abs A B HB) as Hlt.
  pose proof (Z.log2_nonneg (Z.abs A)) as LA.
  pose proof (Z.log2_nonneg (Z.abs B)) as LB.
  destruct (Z.eq_dec (Z.rem A B) 0) as [E|NE].
  - destruct stack as [|stack]; [lia|].
    rewrite gcd_unfold. cbn [strict_eq_zero is_zero].
    rewrite (over_zero _ _ _ Hr), E. cbn.
    exists y. rewrite euclid_step. cbn.
    repeat split; [assumption | intros _; assumption].
  - destruct (IH y (Qred (Qrem x y)) B (Z.rem A B))
      as (g & Hg & Og & Cg); try assumption.
    + apply Qcanon.Qred_involutive.
    + lia.
    + pose proof (rem_halves A B HB Hle) as Hh.
      pose proof (Z.log2_double (Z.abs (Z.rem A B)) ltac:(lia)) as Hd.
      pose proof (Z.log2_le_mono _ _ Hh). lia.
    + exists g. split; [exact Hg|]. split; [exact Og|]. auto.
Qed.

(** [gcd] on finite numbers, for any first operand. *)
Lemma gcd_finite D stack x y A B :
  over D x A -> over D y B -> Qred y = y ->
  frames_for B <= Z.of_nat stack ->
  exists g, gcd stack (VNum (Fin x)) (VNum (Fin y)) = Ret (VNum (Fin g))
            /\ over D g (euclid A B) /\ (B <> 0 -> Qred g = g).
Proof.
  unfold frames_for. intros Hx Hy Cy Hst.
  destruct stack as [|stack]; [pose proof (Z.log2_nonneg (Z.abs B)); lia|].
  rewrite gcd_unfold, euclid_step. cbn [strict_eq_zero is_zero].
  rewrite (over_zero _ _ _ Hy).
  destruct (Z.eqb_spec B 0) as [->|HB].
  { exists x. repeat split; [exact Hx | congruence]. }
  unfold rem_values. rewrite !ToNumber_VNum. cbn [bind].
  rewrite (js_rem_over D x y A B) by assumption.
  pose proof (over_Qrem D x y A B Hx Hy HB) as Hr.
  pose proof (Z.rem_bound_abs A B HB) as Hlt.
  destruct (gcd_ordered D stack y (Qred (Qrem x y)) B (Z.rem A B))
    as (g & Hg & Og & Cg); try assumption.
  - apply Qcanon.Qred_involutive.
  - lia.
  - pose proof (Z.log2_le_mono (Z.abs (Z.rem A B)) (Z.abs B) ltac:(lia)).
    lia.
  - exists g. split; [exact Hg|]. split; [exact Og|]. intros _.
    destruct (Z.eq_dec (Z.rem A B) 0) as [E|NE]; [|now apply Cg].
    destruct stack as [|stack]; [discriminate Hg|].
    rewrite gcd_unfold in Hg. cbn [strict_eq_zero is_zero] in Hg.
    rewrite (over_zero _ _ _ Hr), E in Hg. cbn in Hg.
    injection Hg as <-. exact Cy.
Qed.

Lemma over_int z : over 1 (inject_Z z) z.
Proof. unfold over, inject_Z. reflexivity. Qed.

(** [gcd] on integers is Euclid's algorithm. *)
Lemma gcd_int stack a b :
  frames_for b <= Z.of_nat stack ->
  gcd stack (VInt a) (VInt b) = Ret (VInt (euclid a b)).
Proof.
  intros Hst.
  destruct (gcd_finite 1 stack (inject_Z a) (inject_Z b) a b)
    as (g & Hg & Og & Cg);
    [apply over_int | apply over_int | apply Qred_inject_Z | exact Hst |].
  unfold VInt, int. rewrite Hg.
  destruct (Z.eq_dec b 0) as [->|Hb].
  - destruct stack as [|stack]; [discriminate Hg|].
    rewrite euclid_step. cbn. rewrite gcd_unfold in Hg. cbn in Hg.
    now injection Hg as <-.
  - rewrite <- (Cg Hb). do 3 f_equal. apply Qred_int. exact Og.
Qed.

(** No number that a double can hold needs more than 2051 frames. *)
Lemma frames_for_double z :
  Z.abs z < 2 ^ 1024 -> frames_for z <= 2051.
Proof.
  intros H. unfold frames_for.
  destruct (Z.eq_dec z 0) as [->|Hz]; [cbn; lia|].
  assert (Z.log2 (Z.abs z) < 1024) by (apply Z.log2_lt_pow2; lia).
  lia.
Qed.

(** ** calculateHCF and calculateLCM on integers *)

Lemma positive_integer_VInt z : positive_integer (VInt z) = (0 <? z).
Proof.
  unfold positive_integer. rewrite as_integer_VInt.
  destruct (Z.leb_spec z 0), (Z.ltb_spec 0 z); try lia; reflexivity.
Qed.

Lemma ToNumber_VInt z : ToNumber (VInt z) = Ret (int z).
Proof. reflexivity. Qed.

Lemma strict_eq_zero_VInt z : strict_eq_zero (VInt z) = (z =? 0).
Proof. reflexivity. Qed.

Lemma euclid_divide_mul a b : (euclid a b | a * b).
Proof. apply Z.divide_mul_l, euclid_divide_l. Qed.

Lemma lcm_step_abs a b : b <> 0 -> Z.abs (lcm_step a b) <= Z.abs (a * b).
Proof.
  intros Hb. unfold lcm_step.
  pose proof (euclid_nonzero a b Hb) as Hg.
  destruct (euclid_divide_mul a b) as [k Hk].
  rewrite Hk, Z.div_mul by exact Hg. nia.
Qed.

(** [lcm] on integers whose product a double holds exactly. *)
Lemma lcm_int stack a b :
  b <> 0 -> frames_for b <= Z.of_nat stack -> Z.abs (a * b) <= 2 ^ 53 ->
  lcm stack (VInt a) (VInt b) = Ret (VInt (lcm_step a b)).
Proof.
  intros Hb Hst Hfit. unfold lcm, mul_values, div_values.
  rewrite !ToNumber_VInt. cbn [bind].
  rewrite gcd_int by assumption. cbn [bind].
  rewrite js_mul_int, ToNumber_VNum, ToNumber_VInt by assumption.
  cbn [bind].
  rewrite js_div_int; [reflexivity | now apply euclid_nonzero | |].
  - apply euclid_divide_mul.
  - pose proof (lcm_step_abs a b Hb) as H. unfold lcm_step in H. lia.
Qed.

Lemma reduce_hcf_ints stack xs : forall acc,
  Forall (fun z => 0 < z) xs ->
  Forall (fun z => frames_for z <= Z.of_nat stack) xs ->
  reduce_from (hcf_callback stack) (VInt acc) (map VInt xs)
  = Ret (VInt (fold_left euclid xs acc)).
Proof.
  induction xs as [|z xs IH]; intros acc Hpos Hst; [reflexivity|].
  inversion_clear Hpos. inversion_clear Hst.
  cbn [map reduce_from fold_left]. unfold hcf_callback at 1.
  rewrite positive_integer_VInt.
  destruct (Z.ltb_spec 0 z); [|lia]. cbn [negb].
  rewrite gcd_int by assumption. cbn [bind]. now apply IH.
Qed.

Lemma products_fit_cons acc z xs :
  products_fit acc (z :: xs) = true ->
  Z.abs (acc * z) <= 2 ^ 53 /\ products_fit (lcm_step acc z) xs = true.
Proof.
  cbn [products_fit]. intros H. apply andb_prop in H as [H1 H2].
  split; [now apply Z.leb_le | exact H2].
Qed.

Lemma reduce_lcm_ints stack xs : forall acc,
  Forall (fun z => 0 < z) xs ->
  Forall (fun z => frames_for z <= Z.of_nat stack) xs ->
  products_fit acc xs = true ->
  reduce_from (lcm_callback stack) (VInt acc) (map VInt xs)
  = Ret (VInt (fold_left lcm_step xs acc)).
Proof.
  induction xs as [|z xs IH]; intros acc Hpos Hst Hfit; [reflexivity|].
  inversion_clear Hpos. inversion_clear Hst.
  apply products_fit_cons in Hfit as [Hz Hfit].
  cbn [map reduce_from fold_left]. unfold lcm_callback at 1.
  rewrite positive_integer_VInt.
  destruct (Z.ltb_spec 0 z); [|lia]. cbn [negb].
  rewrite lcm_int by (assumption || lia). cbn [bind]. now apply IH.
Qed.

(** C6, as stated, fails on large elements: the product of 94906267 and
    94906269, two positive integers with greatest common divisor 1, is
    9007199705687823, which no double holds; [calculateLCM] returns the
    double next to it, which is not the fold of [a * b / gcd(a, b)]. *)
Lemma calculateLCM_rounds :
  Forall (fun z => 0 < z) [94906267; 94906269] /\
  calculateLCM 100 (ints [94906267; 94906269])
  = Ret (VInt 9007199705687824) /\
  fold_left lcm_step [94906269] 94906267 = 9007199705687823.
Proof.
  split; [repeat constructor|]. split; [vm_compute; reflexivity|].
  cbn [fold_left]. unfold lcm_step. rewrite euclid_gcd by lia.
  vm_compute. reflexivity.
Qed.

(** C6, amended.  On a non-empty array of positive integers [calculateHCF]
    returns the left fold of [gcd], Euclid's recursive algorithm, over the
    array, starting from the first element; [calculateLCM] returns the left
    fold of [(a, b) -> a * b / gcd(a, b)] when no product [a * b] that the
    fold forms exceeds 2^53; the call stack has to hold the logarithmically
    many frames of each [gcd]. *)
Theorem calculateHCF_calculateLCM_fold stack x xs :
  Forall (fun z => 0 < z) (x :: xs) ->
  Forall (fun z => frames_for z <= Z.of_nat stack) xs ->
  calculateHCF stack (ints (x :: xs)) = Ret (VInt (fold_left euclid xs x)) /\
  (products_fit x xs = true ->
   calculateLCM stack (ints (x :: xs))
   = Ret (VInt (fold_left lcm_step xs x))).
Proof.
  intros Hpos Hst. inversion_clear Hpos.
  unfold calculateHCF, calculateLCM, ints. cbn [map List.length Nat.eqb].
  unfold array_reduce.
  split; [now apply reduce_hcf_ints | now apply reduce_lcm_ints].
Qed.

Lemma calculateHCF_calculateLCM_fold_witness :
  calculateHCF 100 (ints [12; 18; 24]) = Ret (VInt 6) /\
  calculateLCM 100 (ints [4; 6]) = Ret (VInt 12).
Proof.
  split.
  - apply (calculateHCF_calculateLCM_fold 100 12 [18; 24]).
    + repeat constructor.
    + repeat constructor; vm_compute; discriminate.
  - apply (calculateHCF_calculateLCM_fold 100 4 [6]).
    + repeat constructor.
    + repeat constructor; vm_compute; discriminate.
    + reflexivity.
Defined.

(** On positive integers the two folds are the greatest common divisor and
    the least common multiple. *)
Lemma fold_euclid_gcd xs : forall x,
  0 < x -> Forall (fun z => 0 < z) xs ->
  fold_left euclid xs x = fold_left Z.gcd xs x /\ 0 < fold_left euclid xs x.
Proof.
  induction xs as [|z xs IH]; intros x Hx Hpos; cbn [fold_left].
  - split; [reflexivity | exact Hx].
  - inversion_clear Hpos. rewrite euclid_gcd by lia.
    apply IH; [|assumption].
    pose proof (Z.gcd_nonneg x z).
    destruct (Z.eq_dec (Z.gcd x z) 0) as [E|]; [|lia].
    apply Z.gcd_eq_0_l in E. lia.
Qed.

Lemma lcm_step_lcm a b : 0 < a -> 0 < b -> lcm_step a b = Z.lcm a b.
Proof.
  intros Ha Hb. unfold lcm_step. rewrite euclid_gcd by lia.
  unfold Z.lcm. rewrite Z.abs_eq.
  - apply Z.divide_div_mul_exact.
    + intros E. apply Z.gcd_eq_0_l in E. lia.
    + apply Z.gcd_divide_r.
  - apply Z.mul_nonneg_nonneg; [lia|].
    apply Z.div_pos; [lia|].
    pose proof (Z.gcd_nonneg a b).
    destruct (Z.eq_dec (Z.gcd a b) 0) as [E|]; [|lia].
    apply Z.gcd_eq_0_l in E. lia.
Qed.

Lemma product_pos xs : Forall (fun z => 0 < z) xs -> 0 < product xs.
Proof.
  induction 1 as [|z xs Hz _ IH]; cbn [product fold_right]; [lia|].
  fold (product xs). nia.
Qed.

(** When the product of all the elements is at most 2^53, so is every
    product that the fold forms. *)
Lemma products_fit_product xs : forall x,
  0 < x -> Forall (fun z => 0 < z) xs ->
  x * product xs <= 2 ^ 53 ->
  products_fit x xs = true.
Proof.
  induction xs as [|z xs IH]; intros x Hx Hpos Hprod; [reflexivity|].
  inversion_clear Hpos as [|? ? Hz Hxs].
  pose proof (product_pos xs Hxs) as Hp.
  cbn [product fold_right] in Hprod. fold (product xs) in Hprod.
  pose proof (lcm_step_abs x z ltac:(lia)) as Hl.
  assert (Hlpos : 0 < lcm_step x z).
  { rewrite lcm_step_lcm by assumption.
    pose proof (Z.lcm_nonneg x z).
    destruct (Z.eq_dec (Z.lcm x z) 0) as [E|]; [|lia].
    apply Z.lcm_eq_0 in E. lia. }
  cbn [products_fit]. apply andb_true_intro. split.
  - apply Z.leb_le. nia.
  - apply IH; [assumption | assumption | nia].
Qed.

Lemma product_Permutation xs ys :
  Permutation xs ys -> product xs = product ys.
Proof.
  induction 1 as [|z xs ys _ IH|y z xs|xs ys zs _ IH1 _ IH2];
    cbn [product fold_right]; [reflexivity | | | congruence].
  - fold (product xs) (product ys). now rewrite IH.
  - lia.
Qed.

(** ** C9: termination of gcd *)

(** C9.  [gcd(a, b)] on integers: the base case [b = 0] returns [a]; a
    recursive call is made only when [b <> 0], it is [gcd(b, a % b)], and
    its second argument is strictly smaller in absolute value; so the base
    case is reached, within [frames_for b] frames. *)
Theorem gcd_terminates (a b : Z) :
  (forall stack, gcd (S stack) (VInt a) (VInt 0) = Ret (VInt a)) /\
  (b <> 0 ->
   (forall stack,
      gcd (S stack) (VInt a) (VInt b) = gcd stack (VInt b) (VInt (Z.rem a b)))
   /\ Z.abs (Z.rem a b) < Z.abs b) /\
  (exists r, forall stack,
      frames_for b <= Z.of_nat stack ->
      gcd stack (VInt a) (VInt b) = Ret (VInt r)).
Proof.
  split; [reflexivity|]. split.
  - intros Hb. split; [|now apply Z.rem_bound_abs].
    intros stack. rewrite gcd_unfold, strict_eq_zero_VInt.
    destruct (Z.eqb_spec b 0); [contradiction|].
    unfold rem_values. rewrite !ToNumber_VInt. cbn [bind].
    now rewrite js_rem_int.
  - exists (euclid a b). intros stack Hst. now apply gcd_int.
Qed.

Lemma gcd_terminates_witness :
  (forall stack,
     gcd (S stack) (VInt 12) (VInt 18) = gcd stack (VInt 18) (VInt 12))
  /\ Z.abs (Z.rem 12 18) < Z.abs 18.
Proof.
  apply (proj1 (proj2 (gcd_terminates 12 18))). discriminate.
Defined.

(** ** The first element of the array is never validated *)

(** C1 (the code departs from it).  [calculateLCM([-2, 4])] does not throw:
    [reduce] is called without an initial value, so the first element is the
    initial accumulator and never reaches the callback's check; the call
    returns 4, and the handler answers 200 with that as data.  In the same
    way [calculateHCF([-2, 4])] returns -2. *)
Theorem calculateLCM_negative_first_returns :
  forall stack email generate,
    calculateLCM (3 + stack) (ints [-2; 4]) = Ret (VInt 4) /\
    calculateHCF (3 + stack) (ints [-2; 4]) = Ret (VInt (-2)) /\
    snd (handler email (3 + stack) generate
           (obj [("lcm"%string, ints [-2; 4])]))
    = {| status := 200; is_success := true; official_email := email;
         data := Some (VInt 4); error := None |}.
Proof.
  intros stack email generate. repeat split; reflexivity.
Qed.










(** [gcd] with [NaN] as second operand never reaches its base case. *)
Lemma gcd_NaN stack : forall n,
  gcd stack (VNum n) (VNum NaN) = Throw Msg.stack_overflow.
Proof.
  induction stack as [|stack IH]; intros n; [reflexivity|].
  rewrite gcd_unfold. cbn [strict_eq_zero is_zero].
  unfold rem_values. rewrite !ToNumber_VNum. cbn [bind].
  replace (js_rem n NaN) with NaN by (destruct n; reflexivity).
  apply IH.
Qed.






(** ** Text normalization *)

Lemma filter_step {A} (f : A -> bool) x l :
  filter f (x :: l) = if f x then x :: filter f l else filter f l.
Proof. reflexivity. Qed.

Lemma remove_bold_cons c d s :
  remove_bold (c :: d :: s) =
  if ((c =? 42) && (d =? 42))%N then remove_bold s
  else c :: remove_bold (d :: s).
Proof. reflexivity. Qed.

Lemma remove_bold_stars n : forall s,
  (List.length s <= n)%nat ->
  remove_char 42 (remove_bold s) = remove_char 42 s.
Proof.
  induction n as [|n IH]; intros s Hn.
  { destruct s; [reflexivity | cbn in Hn; lia]. }
  destruct s as [|c [|d s]]; [reflexivity | reflexivity |].
  cbn [List.length] in Hn. rewrite remove_bold_cons.
  assert (Hs : remove_char 42 (remove_bold (d :: s)) = remove_char 42 (d :: s))
    by (apply IH; cbn [List.length]; lia).
  destruct (N.eqb_spec c 42) as [->|Hc]; cbn [andb].
  - destruct (N.eqb_spec d 42) as [->|Hd].
    + rewrite IH by lia. reflexivity.
    + unfold remove_char in *. rewrite (filter_step _ 42%N).
      cbn [N.eqb Pos.eqb negb]. exact Hs.
  - unfold remove_char in *. rewrite !(filter_step _ c).
    now rewrite Hs.
Qed.

Lemma strip_pipeline s :
  remove_punct (remove_char 96 (remove_char 42 (remove_bold s)))
  = strip_markers s.
Proof.
  rewrite (remove_bold_stars (List.length s)) by lia.
  unfold remove_punct, remove_char, strip_markers, is_marker.
  induction s as [|c s IH]; [reflexivity|].
  cbn [filter].
  destruct (c =? 42)%N; cbn [negb orb]; [exact IH|].
  cbn [filter].
  destruct (c =? 96)%N; cbn [negb orb]; [exact IH|].
  cbn [filter].
  destruct (is_punct c); cbn [negb]; [exact IH | now rewrite IH].
Qed.

Lemma split_go_first s : forall piece,
  nth_error (split_go false piece s) 0 = Some (piece ++ until_space s).
Proof.
  induction s as [|c s IH]; intros piece; cbn [split_go until_space].
  - now rewrite app_nil_r.
  - destruct (is_space c).
    + now rewrite app_nil_r.
    + rewrite IH, <- app_assoc. reflexivity.
Qed.

Lemma trimStart_split s :
  exists w, s = w ++ trimStart s /\ forallb is_space w = true.
Proof.
  induction s as [|c s (w & E & Hw)]; [exists []; split; reflexivity|].
  cbn [trimStart]. destruct (is_space c) eqn:Hc.
  - exists (c :: w). cbn [forallb app]. rewrite Hc, Hw, <- E.
    split; reflexivity.
  - exists []. split; reflexivity.
Qed.

Lemma until_space_app p : forall w,
  forallb is_space w = true -> until_space (p ++ w) = until_space p.
Proof.
  induction p as [|c p IH]; intros w Hw.
  - destruct w as [|d w]; [reflexivity|]. cbn in *.
    destruct (is_space d); [reflexivity | discriminate].
  - cbn [app until_space]. destruct (is_space c); [reflexivity|].
    now rewrite IH.
Qed.

Lemma until_space_trim s : until_space (trim s) = first_token s.
Proof.
  unfold trim, first_token.
  destruct (trimStart_split (rev (trimStart s))) as (w & E & Hw).
  apply (f_equal (@rev N)) in E. rewrite rev_involutive, rev_app_distr in E.
  rewrite E at 2. symmetry. apply until_space_app.
  rewrite forallb_forall in *. intros x Hx. apply Hw. now apply in_rev.
Qed.

Lemma clean_first_token text :
  clean text = Some (first_token (strip_markers text)).
Proof.
  unfold clean, split. rewrite strip_pipeline, split_go_first.
  cbn [app]. now rewrite until_space_trim.
Qed.

Lemma trimStart_spaces s :
  forallb is_space s = true -> trimStart s = [].
Proof.
  induction s as [|c s IH]; [reflexivity|]. cbn.
  destruct (is_space c); [exact IH | discriminate].
Qed.

Lemma trimStart_nil_spaces s :
  trimStart s = [] -> forallb is_space s = true.
Proof.
  induction s as [|c s IH]; [reflexivity|]. cbn.
  destruct (is_space c); [exact IH | discriminate].
Qed.

Lemma trim_nil_iff s : trim s = [] <-> forallb is_space s = true.
Proof.
  unfold trim. split.
  - intros H. apply (f_equal (@rev N)) in H.
    rewrite rev_involutive in H. cbn in H.
    apply trimStart_nil_spaces in H.
    destruct (trimStart_split s) as (w & E & Hw).
    rewrite E, forallb_app, Hw. cbn [andb].
    rewrite forallb_forall in *. intros x Hx. apply H.
    now apply (proj1 (in_rev _ _)).
  - intros H. now rewrite (trimStart_spaces s H).
Qed.

Lemma first_token_spaces s :
  forallb is_space s = true -> first_token (strip_markers s) = [].
Proof.
  intros H. unfold first_token. rewrite trimStart_spaces; [reflexivity|].
  unfold strip_markers. rewrite forallb_forall in *.
  intros x Hx. apply filter_In in Hx. now apply H.
Qed.

Lemma is_empty_true (s : jsstring) : is_empty s = true <-> s = [].
Proof. destruct s; split; (reflexivity || discriminate). Qed.

Lemma normalize_first_token raw :
  normalize raw =
  if is_empty (first_token (strip_markers raw))
  then Throw (if is_empty (trim raw) then Msg.empty_response
              else Msg.no_answer)
  else Ret (first_token (strip_markers raw)).
Proof.
  unfold normalize. rewrite clean_first_token.
  destruct (is_empty (trim raw)) eqn:Ht.
  - rewrite orb_true_r.
    apply is_empty_true, trim_nil_iff, first_token_spaces in Ht.
    now rewrite Ht.
  - rewrite orb_false_r. destruct raw as [|c raw]; [discriminate Ht|].
    reflexivity.
Qed.

(** C7.  Normalization removes the emphasis markers, the backticks and the
    punctuation, trims, and returns the first white-space-delimited token;
    it throws when that token is empty, as for an empty or blank text. *)
Theorem normalize_spec :
  (forall raw,
     clean raw = Some (first_token (strip_markers raw)) /\
     normalize raw =
     if is_empty (first_token (strip_markers raw))
     then Throw (if is_empty (trim raw) then Msg.empty_response
                 else Msg.no_answer)
     else Ret (first_token (strip_markers raw))) /\
  normalize (str "**Paris.**") = Ret (str "Paris") /\
  normalize (str "  hello world  ") = Ret (str "hello") /\
  normalize (str "") = Throw Msg.empty_response /\
  (forall raw, forallb is_space raw = true ->
               normalize raw = Throw Msg.empty_response).
Proof.
  split; [intros raw; split;
          [apply clean_first_token | apply normalize_first_token]|].
  repeat split; try reflexivity.
  intros raw H. rewrite normalize_first_token.
  rewrite (first_token_spaces raw H). cbn [is_empty].
  apply trim_nil_iff in H. now rewrite H.
Qed.

Lemma normalize_spec_witness :
  normalize [32; 9; 160; 10]%N = Throw Msg.empty_response.
Proof.
  apply (proj2 (proj2 (proj2 (proj2 normalize_spec)))). reflexivity.
Defined.

(** ** The handler, one recognized key *)

Lemma handler_one email stack generate body keys key :
  object_keys body = Ret keys ->
  filter (includes validKeys) keys = [key] ->
  handler email stack generate body =
  match run_operation stack generate body key with
  | Some (events, Ret d) => (events, success email d)
  | Some (events, Throw m) => (events, failure email m)
  | None => ([], failure email Msg.invalid_key)
  end.
Proof.
  intros Hk Hf. unfold handler, try_block. rewrite Hk, Hf.
  destruct (run_operation stack generate body key) as [[ev [d|m]]|];
    reflexivity.
Qed.

Lemma run_operation_AI stack generate body :
  run_operation stack generate body (str "AI") =
  let (events, r) := getAIResponse generate (get_prop body (str "AI")) in
  Some (Enter "getAIResponse" (get_prop body (str "AI")) :: events, r).
Proof. reflexivity. Qed.

(** ** getAIResponse *)

Lemma is_empty_false (s : jsstring) : is_empty s = false <-> s <> [].
Proof. destruct s; split; (congruence || discriminate || reflexivity). Qed.

Lemma getAIResponse_invalid generate question :
  (forall q, question = VStr q -> trim q = []) ->
  getAIResponse generate question = ([], Throw Msg.question).
Proof.
  intros H. destruct question as [| | | |q| |]; try reflexivity.
  cbn. now rewrite (H q eq_refl).
Qed.

Lemma getAIResponse_valid generate q :
  trim q <> [] ->
  getAIResponse generate (VStr q) =
  ([Generate (prompt_of q)],
   match ask generate q with
   | Ret word => Ret (VStr word)
   | Throw _ => Throw Msg.ai_failed
   end).
Proof.
  intros H. cbn. apply is_empty_false in H. now rewrite H.
Qed.

(** C8.  A question that is not a string, or is blank, is refused with
    'Question must be a non-empty string' and the capability is not called;
    the handler passes that message on unchanged.  After that check the
    capability is called once, and whatever goes wrong (a rejection, no
    response, a failing [text()], an empty text, no extractable answer) is
    reported as 'AI API request failed'. *)
Theorem getAIResponse_errors (generate : capability) :
  (forall question,
     (forall q, question = VStr q -> trim q = []) ->
     getAIResponse generate question = ([], Throw Msg.question) /\
     forall email stack,
       handler email stack generate (obj [("AI"%string, question)])
       = ([Enter "getAIResponse" question], failure email Msg.question)) /\
  (forall q,
     trim q <> [] ->
     let run := getAIResponse generate (VStr q) in
     fst run = [Generate (prompt_of q)] /\
     (snd run = Throw Msg.ai_failed \/ exists word, snd run = Ret (VStr word)) /\
     (forall m, generate (prompt_of q) = GenRejects m ->
                snd run = Throw Msg.ai_failed) /\
     (generate (prompt_of q) = GenNoResponse ->
      snd run = Throw Msg.ai_failed) /\
     (forall m, generate (prompt_of q) = GenTextThrows m ->
                snd run = Throw Msg.ai_failed) /\
     (forall text m, generate (prompt_of q) = GenText text ->
                     normalize text = Throw m ->
                     snd run = Throw Msg.ai_failed) /\
     (forall text word, generate (prompt_of q) = GenText text ->
                        normalize text = Ret word ->
                        snd run = Ret (VStr word))).
Proof.
  split.
  - intros question H.
    pose proof (getAIResponse_invalid generate question H) as E.
    split; [exact E|]. intros email stack.
    rewrite (handler_one _ _ _ _ [str "AI"] (str "AI")) by reflexivity.
    rewrite run_operation_AI.
    change (get_prop (obj [("AI"%string, question)]) (str "AI"))
      with question.
    rewrite E. reflexivity.
  - intros q Hq run. subst run. rewrite (getAIResponse_valid _ _ Hq).
    cbn [fst snd]. unfold ask.
    split; [reflexivity|].
    split.
    { destruct (generate (prompt_of q)) as [m| |m|text]; auto.
      destruct (normalize text); eauto. }
    repeat split; intros.
    all: repeat match goal with
           | H : _ = _ :> gen_outcome |- _ => rewrite H; clear H
           | H : normalize _ = _ |- _ => rewrite H; clear H
           end; reflexivity.
Qed.

Lemma getAIResponse_errors_witness :
  getAIResponse (fun _ => GenText (str "Paris")) (VStr (str "  "))
  = ([], Throw Msg.question) /\
  forall email stack,
    handler email stack (fun _ => GenText (str "Paris"))
      (obj [("AI"%string, VStr (str "  "))])
    = ([Enter "getAIResponse" (VStr (str "  "))], failure email Msg.question).
Proof.
  apply (proj1 (getAIResponse_errors (fun _ => GenText (str "Paris")))
           (VStr (str "  "))).
  intros q [= <-]. reflexivity.
Defined.

(** ** The dispatcher *)

Lemma jsstring_eqb_eq a b : jsstring_eqb a b = true <-> a = b.
Proof.
  unfold jsstring_eqb. destruct (list_eq_dec N.eq_dec a b); split;
    congruence.
Qed.

Lemma includes_In keys k : includes keys k = true <-> In k keys.
Proof.
  unfold includes. rewrite existsb_exists. split.
  - intros (x & Hx & E). apply jsstring_eqb_eq in E. now subst.
  - intros H. exists k. split; [exact H | now apply jsstring_eqb_eq].
Qed.





Lemma run_operation_valid stack generate body key :
  In key validKeys ->
  run_operation stack generate body key <> None.
Proof.
  intros H. cbn in H.
  decompose [or] H; try contradiction; subst key.
  - discriminate.
  - discriminate.
  - discriminate.
  - discriminate.
  - rewrite run_operation_AI. now destruct (getAIResponse _ _).
Qed.

(** C3.  Every answer of the handler carries the configured
    [official_email]; it is either 200 with [is_success = true] and data, or
    400 with [is_success = false] and a message, never both and never a
    thrown error.  With one recognized key the selected operation decides:
    what it returns is the data of a 200, and the message of what it throws
    is the error of a 400; the operation is the kernel function or the AI
    delegate of that key, applied to the value under the key. *)
Theorem handler_envelope email stack generate body :
  let r := snd (handler email stack generate body) in
  official_email r = email /\
  ((status r = 200 /\ is_success r = true /\ error r = None /\
    exists d, data r = Some d) \/
   (status r = 400 /\ is_success r = false /\ data r = None /\
    exists m, error r = Some m)) /\
  (forall keys key,
     object_keys body = Ret keys ->
     filter (includes validKeys) keys = [key] ->
     exists events outcome,
       run_operation stack generate body key = Some (events, outcome) /\
       handler email stack generate body =
       (events,
        match outcome with
        | Ret d =>
            {| status := 200; is_success := true; official_email := email;
               data := Some d; error := None |}
        | Throw m =>
            {| status := 400; is_success := false; official_email := email;
               data := None; error := Some m |}
        end)) /\
  (option_map snd (run_operation stack generate body (str "fibonacci"))
   = Some (generateFibonacci (get_prop body (str "fibonacci")))) /\
  (option_map snd (run_operation stack generate body (str "prime"))
   = Some (filterPrimes (get_prop body (str "prime")))) /\
  (option_map snd (run_operation stack generate body (str "lcm"))
   = Some (calculateLCM stack (get_prop body (str "lcm")))) /\
  (option_map snd (run_operation stack generate body (str "hcf"))
   = Some (calculateHCF stack (get_prop body (str "hcf")))) /\
  (option_map snd (run_operation stack generate body (str "AI"))
   = Some (snd (getAIResponse generate (get_prop body (str "AI"))))).
Proof.
  intros r.
  assert (Hshape :
    official_email r = email /\
    ((status r = 200 /\ is_success r = true /\ error r = None /\
      exists d, data r = Some d) \/
     (status r = 400 /\ is_success r = false /\ data r = None /\
      exists m, error r = Some m))).
  { subst r. unfold handler.
    destruct (try_block email stack generate body) as [events [resp|m]] eqn:E;
      cbn [snd]; [|split; [reflexivity | right; cbn; eauto]].
    unfold try_block in E.
    destruct (object_keys body) as [keys|m]; [|discriminate E].
    destruct (filter (includes validKeys) keys) as [|key [|key' rest]].
    - injection E as _ <-. split; [reflexivity | right; cbn; eauto].
    - destruct (run_operation stack generate body key) as [[ev [d|m]]|];
        try discriminate E; injection E as _ <-;
        (split; [reflexivity | cbn; eauto 10]).
    - injection E as _ <-. split; [reflexivity | right; cbn; eauto]. }
  destruct Hshape as [Hmail Hshape].
  split; [exact Hmail|]. split; [exact Hshape|]. split.
  - intros keys key Hk Hf.
    rewrite (handler_one _ _ _ _ keys key Hk Hf).
    assert (Hin : In key validKeys).
    { apply includes_In.
      assert (In key (filter (includes validKeys) keys)) as H
          by (rewrite Hf; now left).
      now apply filter_In in H. }
    pose proof (run_operation_valid stack generate body key Hin) as Hv.
    destruct (run_operation stack generate body key) as [[ev out]|];
      [|contradiction].
    exists ev, out. split; [reflexivity|]. destruct out; reflexivity.
  - repeat split; try reflexivity.
    rewrite run_operation_AI. now destruct (getAIResponse _ _).
Qed.

Lemma handler_envelope_witness :
  (exists events outcome,
     run_operation 100 (fun _ => GenNoResponse)
       (obj [("fibonacci"%string, VInt 5)]) (str "fibonacci")
     = Some (events, outcome) /\
     handler (Some (str "me@example.org")) 100 (fun _ => GenNoResponse)
       (obj [("fibonacci"%string, VInt 5)])
     = (events,
        match outcome with
        | Ret d =>
            {| status := 200; is_success := true;
               official_email := Some (str "me@example.org");
               data := Some d; error := None |}
        | Throw m =>
            {| status := 400; is_success := false;
               official_email := Some (str "me@example.org");
               data := None; error := Some m |}
        end)).
Proof.
  apply (proj1 (proj2 (proj2
           (handler_envelope (Some (str "me@example.org")) 100
              (fun _ => GenNoResponse) (obj [("fibonacci"%string, VInt 5)]))))
           [str "fibonacci"] (str "fibonacci")); reflexivity.
Defined.

(** The two end-to-end examples of the specification. *)
Example post_fibonacci_5 email stack generate :
  snd (handler email stack generate (obj [("fibonacci"%string, VInt 5)]))
  = {| status := 200; is_success := true; official_email := email;
       data := Some (ints [0; 1; 1; 2; 3]); error := None |}.
Proof. reflexivity. Qed.

Example post_hcf_empty email stack generate :
  snd (handler email stack generate (obj [("hcf"%string, VArr [])]))
  = {| status := 400; is_success := false; official_email := email;
       data := None; error := Some (str "Input must be a non-empty array") |}.
Proof. reflexivity. Qed.

(** * Further properties of the kernel *)

(** ** gcd, calculateHCF and calculateLCM as number theory *)

(** X4.  [gcd(a, b)] on integers of any sign returns the greatest common divisor
    up to sign, and exactly it when neither argument is negative. *)
Theorem gcd_greatest_common_divisor stack a b :
  frames_for b <= Z.of_nat stack ->
  exists g,
    gcd stack (VInt a) (VInt b) = Ret (VInt g) /\
    Z.abs g = Z.gcd a b /\
    (0 <= a -> 0 <= b -> g = Z.gcd a b).
Proof.
  intros Hst. exists (euclid a b).
  split; [now apply gcd_int|]. split; [apply euclid_abs|].
  apply euclid_gcd.
Qed.

Lemma gcd_greatest_common_divisor_witness :
  exists g,
    gcd 100 (VInt (-12)) (VInt 18) = Ret (VInt g) /\
    Z.abs g = Z.gcd (-12) 18 /\
    (0 <= -12 -> 0 <= 18 -> g = Z.gcd (-12) 18).
Proof.
  apply (gcd_greatest_common_divisor 100 (-12) 18).
  vm_compute. discriminate.
Defined.

Lemma fold_gcd_divides xs : forall x,
  (fold_left Z.gcd xs x | x) /\
  forall e, In e xs -> (fold_left Z.gcd xs x | e).
Proof.
  induction xs as [|z xs IH]; intros x; cbn [fold_left].
  - split; [apply Z.divide_refl | intros e []].
  - destruct (IH (Z.gcd x z)) as [Hg Hin]. split.
    + eapply Z.divide_trans; [exact Hg | apply Z.gcd_divide_l].
    + intros e [<-|He]; [|now apply Hin].
      eapply Z.divide_trans; [exact Hg | apply Z.gcd_divide_r].
Qed.

Lemma fold_gcd_greatest d xs : forall x,
  (d | x) -> (forall e, In e xs -> (d | e)) -> (d | fold_left Z.gcd xs x).
Proof.
  induction xs as [|z xs IH]; intros x Hx Hin; cbn [fold_left];
    [exact Hx|].
  apply IH.
  - apply Z.gcd_greatest; [exact Hx | apply Hin; now left].
  - intros e He. apply Hin. now right.
Qed.

Lemma fold_lcm_step xs : forall x,
  0 < x -> Forall (fun z => 0 < z) xs ->
  fold_left lcm_step xs x = fold_left Z.lcm xs x /\
  0 < fold_left lcm_step xs x.
Proof.
  induction xs as [|z xs IH]; intros x Hx Hpos; cbn [fold_left].
  - split; [reflexivity | exact Hx].
  - inversion_clear Hpos. rewrite lcm_step_lcm by assumption.
    apply IH; [|assumption].
    pose proof (Z.lcm_nonneg x z).
    destruct (Z.eq_dec (Z.lcm x z) 0) as [E|]; [|lia].
    apply Z.lcm_eq_0 in E. lia.
Qed.

Lemma fold_lcm_multiple xs : forall x,
  (x | fold_left Z.lcm xs x) /\
  forall e, In e xs -> (e | fold_left Z.lcm xs x).
Proof.
  induction xs as [|z xs IH]; intros x; cbn [fold_left].
  - split; [apply Z.divide_refl | intros e []].
  - destruct (IH (Z.lcm x z)) as [Hl Hin]. split.
    + eapply Z.divide_trans; [apply Z.divide_lcm_l | exact Hl].
    + intros e [<-|He]; [|now apply Hin].
      eapply Z.divide_trans; [apply Z.divide_lcm_r | exact Hl].
Qed.

Lemma fold_lcm_least m xs : forall x,
  (x | m) -> (forall e, In e xs -> (e | m)) -> (fold_left Z.lcm xs x | m).
Proof.
  induction xs as [|z xs IH]; intros x Hx Hin; cbn [fold_left];
    [exact Hx|].
  apply IH.
  - apply Z.lcm_least; [exact Hx | apply Hin; now left].
  - intros e He. apply Hin. now right.
Qed.

Lemma calculateHCF_ints stack x xs :
  Forall (fun z => 0 < z) xs ->
  Forall (fun z => frames_for z <= Z.of_nat stack) xs ->
  calculateHCF stack (ints (x :: xs)) = Ret (VInt (fold_left euclid xs x)).
Proof.
  intros Hpos Hst. unfold calculateHCF, ints, array_reduce.
  cbn [map List.length Nat.eqb]. now apply reduce_hcf_ints.
Qed.

Lemma calculateLCM_ints stack x xs :
  Forall (fun z => 0 < z) xs ->
  Forall (fun z => frames_for z <= Z.of_nat stack) xs ->
  products_fit x xs = true ->
  calculateLCM stack (ints (x :: xs)) = Ret (VInt (fold_left lcm_step xs x)).
Proof.
  intros Hpos Hst Hfit. unfold calculateLCM, ints, array_reduce.
  cbn [map List.length Nat.eqb]. now apply reduce_lcm_ints.
Qed.

Lemma fold_euclid_universal x xs :
  Forall (fun z => 0 < z) (x :: xs) ->
  0 < fold_left euclid xs x /\
  (forall e, In e (x :: xs) -> (fold_left euclid xs x | e)) /\
  (forall d, (forall e, In e (x :: xs) -> (d | e)) ->
             (d | fold_left euclid xs x)).
Proof.
  intros Hpos. inversion_clear Hpos as [|? ? Hx Hxs].
  destruct (fold_euclid_gcd xs x Hx Hxs) as [E Hg].
  split; [exact Hg|]. rewrite E.
  destruct (fold_gcd_divides xs x) as [D1 D2]. split.
  - intros e [<-|He]; [exact D1 | now apply D2].
  - intros d Hd. apply fold_gcd_greatest.
    + apply Hd. now left.
    + intros e He. apply Hd. now right.
Qed.

Lemma fold_lcm_universal x xs :
  Forall (fun z => 0 < z) (x :: xs) ->
  0 < fold_left lcm_step xs x /\
  (forall e, In e (x :: xs) -> (e | fold_left lcm_step xs x)) /\
  (forall m, (forall e, In e (x :: xs) -> (e | m)) ->
             (fold_left lcm_step xs x | m)).
Proof.
  intros Hpos. inversion_clear Hpos as [|? ? Hx Hxs].
  destruct (fold_lcm_step xs x Hx Hxs) as [E Hl].
  split; [exact Hl|]. rewrite E.
  destruct (fold_lcm_multiple xs x) as [D1 D2]. split.
  - intros e [<-|He]; [exact D1 | now apply D2].
  - intros m Hm. apply fold_lcm_least.
    + apply Hm. now left.
    + intros e He. apply Hm. now right.
Qed.

(** X5.  On positive integers [calculateHCF] returns their greatest common
    divisor: a positive integer that divides every element and that every
    common divisor of the elements divides. *)
Theorem calculateHCF_greatest stack x xs :
  Forall (fun z => 0 < z) (x :: xs) ->
  Forall (fun z => frames_for z <= Z.of_nat stack) xs ->
  exists g,
    calculateHCF stack (ints (x :: xs)) = Ret (VInt g) /\
    0 < g /\
    (forall e, In e (x :: xs) -> (g | e)) /\
    (forall d, (forall e, In e (x :: xs) -> (d | e)) -> (d | g)).
Proof.
  intros Hpos Hst. exists (fold_left euclid xs x). split.
  - inversion_clear Hpos. now apply calculateHCF_ints.
  - now apply fold_euclid_universal.
Qed.

Lemma calculateHCF_greatest_witness :
  exists g,
    calculateHCF 100 (ints [84; 126; 210]) = Ret (VInt g) /\
    0 < g /\
    (forall e, In e [84; 126; 210] -> (g | e)) /\
    (forall d, (forall e, In e [84; 126; 210] -> (d | e)) -> (d | g)).
Proof.
  apply (calculateHCF_greatest 100 84 [126; 210]).
  - repeat constructor.
  - repeat constructor; vm_compute; discriminate.
Defined.

(** X6.  On positive integers whose least-common-multiple fold forms no
    product above 2^53, [calculateLCM] returns their least common multiple:
    a positive integer that every element divides and that divides every
    common multiple of the elements. *)
Theorem calculateLCM_least stack x xs :
  Forall (fun z => 0 < z) (x :: xs) ->
  Forall (fun z => frames_for z <= Z.of_nat stack) xs ->
  products_fit x xs = true ->
  exists l,
    calculateLCM stack (ints (x :: xs)) = Ret (VInt l) /\
    0 < l /\
    (forall e, In e (x :: xs) -> (e | l)) /\
    (forall m, (forall e, In e (x :: xs) -> (e | m)) -> (l | m)).
Proof.
  intros Hpos Hst Hfit. exists (fold_left lcm_step xs x). split.
  - inversion_clear Hpos. now apply calculateLCM_ints.
  - now apply fold_lcm_universal.
Qed.

Lemma calculateLCM_least_witness :
  exists l,
    calculateLCM 100 (ints [4; 6; 10]) = Ret (VInt l) /\
    0 < l /\
    (forall e, In e [4; 6; 10] -> (e | l)) /\
    (forall m, (forall e, In e [4; 6; 10] -> (e | m)) -> (l | m)).
Proof.
  apply (calculateLCM_least 100 4 [6; 10]).
  - repeat constructor.
  - repeat constructor; vm_compute; discriminate.
  - reflexivity.
Defined.

(** X7.  The order of the elements does not matter to [calculateHCF]: two
    arrays of positive integers that are permutations of each other have
    the same [calculateHCF]; they have the same [calculateLCM] too when the
    product of the elements is at most 2^53. *)
Theorem calculateHCF_calculateLCM_permutation stack x xs y ys :
  Permutation (x :: xs) (y :: ys) ->
  Forall (fun z => 0 < z) (x :: xs) ->
  Forall (fun z => frames_for z <= Z.of_nat stack) (x :: xs) ->
  calculateHCF stack (ints (x :: xs)) = calculateHCF stack (ints (y :: ys)) /\
  (product (x :: xs) <= 2 ^ 53 ->
   calculateLCM stack (ints (x :: xs)) = calculateLCM stack (ints (y :: ys))).
Proof.
  intros Hperm Hpos Hst.
  assert (Hpos' : Forall (fun z => 0 < z) (y :: ys))
    by (eapply Permutation_Forall; eassumption).
  assert (Hst' : Forall (fun z => frames_for z <= Z.of_nat stack) (y :: ys))
    by (eapply Permutation_Forall; eassumption).
  assert (Hin : forall e, In e (y :: ys) <-> In e (x :: xs)).
  { intros e. split; apply Permutation_in;
      [now apply Permutation_sym | assumption]. }
  destruct (fold_euclid_universal x xs Hpos) as (G0 & G1 & G2).
  destruct (fold_euclid_universal y ys Hpos') as (G0' & G1' & G2').
  destruct (fold_lcm_universal x xs Hpos) as (L0 & L1 & L2).
  destruct (fold_lcm_universal y ys Hpos') as (L0' & L1' & L2').
  split.
  - rewrite (calculateHCF_ints stack x xs), (calculateHCF_ints stack y ys)
      by (inversion_clear Hpos; inversion_clear Hst;
          inversion_clear Hpos'; inversion_clear Hst'; assumption).
    do 2 f_equal; apply Z.divide_antisym_nonneg; try lia.
    + apply G2'. intros e He. apply G1, Hin, He.
    + apply G2. intros e He. apply G1', Hin, He.
  - intros Hprod.
    assert (Hprod' : product (y :: ys) <= 2 ^ 53)
      by now rewrite <- (product_Permutation _ _ Hperm).
    rewrite (calculateLCM_ints stack x xs), (calculateLCM_ints stack y ys);
      try (inversion_clear Hpos; inversion_clear Hst;
           inversion_clear Hpos'; inversion_clear Hst'; assumption).
    + do 2 f_equal; apply Z.divide_antisym_nonneg; try lia.
      * apply L2. intros e He. apply L1', Hin, He.
      * apply L2'. intros e He. apply L1, Hin, He.
    + inversion_clear Hpos'. now apply products_fit_product.
    + inversion_clear Hpos. now apply products_fit_product.
Qed.

Lemma calculateHCF_calculateLCM_permutation_witness :
  calculateHCF 100 (ints [12; 18; 24]) = calculateHCF 100 (ints [24; 12; 18])
  /\
  calculateLCM 100 (ints [12; 18; 24]) = calculateLCM 100 (ints [24; 12; 18]).
Proof.
  destruct (calculateHCF_calculateLCM_permutation 100 12 [18; 24] 24 [12; 18])
    as [H L].
  - apply Permutation_sym. apply (Permutation_cons_app [12; 18] [] 24).
    reflexivity.
  - repeat constructor.
  - repeat constructor; vm_compute; discriminate.
  - split; [exact H|]. apply L. vm_compute. discriminate.
Defined.

(** ** What the validation of calculateHCF and calculateLCM does catch *)

Lemma reduce_hcf_rejects stack good bad rest : forall acc,
  Forall (fun z => 0 < z) good ->
  Forall (fun z => frames_for z <= Z.of_nat stack) good ->
  positive_integer bad = false ->
  reduce_from (hcf_callback stack) (VInt acc) (map VInt good ++ bad :: rest)
  = Throw Msg.not_positive.
Proof.
  induction good as [|z good IH]; intros acc Hpos Hst Hbad.
  - cbn [map app reduce_from]. unfold hcf_callback. now rewrite Hbad.
  - inversion_clear Hpos. inversion_clear Hst.
    cbn [map app reduce_from]. unfold hcf_callback at 1.
    rewrite positive_integer_VInt.
    destruct (Z.ltb_spec 0 z); [|lia]. cbn [negb].
    rewrite gcd_int by assumption. cbn [bind]. now apply IH.
Qed.

Lemma reduce_lcm_rejects stack good bad rest : forall acc,
  Forall (fun z => 0 < z) good ->
  Forall (fun z => frames_for z <= Z.of_nat stack) good ->
  products_fit acc good = true ->
  positive_integer bad = false ->
  reduce_from (lcm_callback stack) (VInt acc) (map VInt good ++ bad :: rest)
  = Throw Msg.not_positive.
Proof.
  induction good as [|z good IH]; intros acc Hpos Hst Hfit Hbad.
  - cbn [map app reduce_from]. unfold lcm_callback. now rewrite Hbad.
  - inversion_clear Hpos. inversion_clear Hst.
    apply products_fit_cons in Hfit as [Hz Hfit].
    cbn [map app reduce_from]. unfold lcm_callback at 1.
    rewrite positive_integer_VInt.
    destruct (Z.ltb_spec 0 z); [|lia]. cbn [negb].
    rewrite lcm_int by (assumption || lia). cbn [bind]. now apply IH.
Qed.

(** X9.  An element after the first that is not a positive integer is
    caught: whatever integer comes first, when the elements before the
    offending one are positive integers, [calculateHCF] throws 'All elements
    must be positive integers', whatever follows; so does [calculateLCM]
    when no product that the fold forms before it exceeds 2^53. *)
Theorem calculate_rejects_later_element stack first good bad rest :
  Forall (fun z => 0 < z) good ->
  Forall (fun z => frames_for z <= Z.of_nat stack) good ->
  positive_integer bad = false ->
  calculateHCF stack (VArr (VInt first :: map VInt good ++ bad :: rest))
  = Throw Msg.not_positive /\
  (products_fit first good = true ->
   calculateLCM stack (VArr (VInt first :: map VInt good ++ bad :: rest))
   = Throw Msg.not_positive).
Proof.
  intros Hpos Hst Hbad. unfold calculateHCF, calculateLCM, array_reduce.
  cbn [List.length Nat.eqb].
  split; [now apply reduce_hcf_rejects |].
  intros Hfit. now apply reduce_lcm_rejects.
Qed.

Lemma calculate_rejects_later_element_witness :
  calculateHCF 100
    (VArr (VInt (-7) :: map VInt [12; 18] ++ VNum (Fin (5 # 2)) :: [VNull]))
  = Throw Msg.not_positive /\
  calculateLCM 100
    (VArr (VInt (-7) :: map VInt [12; 18] ++ VNum (Fin (5 # 2)) :: [VNull]))
  = Throw Msg.not_positive.
Proof.
  destruct (calculate_rejects_later_element 100 (-7) [12; 18]
              (VNum (Fin (5 # 2))) [VNull]) as [H L].
  - repeat constructor.
  - repeat constructor; vm_compute; discriminate.
  - reflexivity.
  - split; [exact H|]. apply L. reflexivity.
Defined.

Lemma calculate_non_array stack v :
  (forall x rest, v <> VArr (x :: rest)) ->
  calculateHCF stack v = Throw Msg.empty_array /\
  calculateLCM stack v = Throw Msg.empty_array.
Proof.
  intros H. destruct v as [| | | | |[|x rest]|]; try (split; reflexivity).
  now destruct (H x rest).
Qed.

(** X10.  Anything that is not an array, and the empty array, is refused with
    'Input must be a non-empty array' by both functions. *)
Theorem calculate_rejects_non_array stack v :
  (forall x rest, v <> VArr (x :: rest)) ->
  calculateHCF stack v = Throw Msg.empty_array /\
  calculateLCM stack v = Throw Msg.empty_array.
Proof. apply calculate_non_array. Qed.

Lemma calculate_rejects_non_array_witness :
  calculateHCF 100 (VStr (str "12,18")) = Throw Msg.empty_array /\
  calculateLCM 100 (VStr (str "12,18")) = Throw Msg.empty_array.
Proof.
  apply (calculate_rejects_non_array 100 (VStr (str "12,18"))).
  intros x rest. discriminate.
Defined.

(** ** A first element that is not a finite number *)

Lemma positive_integer_number num :
  positive_integer num = true ->
  exists q, num = VNum (Fin q) /\ Qnum q <> 0.
Proof.
  unfold positive_integer.
  destruct (as_integer num) as [z|] eqn:E; [|discriminate].
  intros Hz. apply as_integer_spec in E. destruct E as (q & -> & Hq).
  exists q. split; [reflexivity|].
  unfold Qeq, inject_Z in Hq. cbn [Qnum Qden] in Hq.
  destruct (Z.leb_spec z 0); [discriminate|]. nia.
Qed.

(** X11.  When the first element converts to [NaN] or to an infinity and the
    second is a positive integer, both functions fail with the engine's
    'Maximum call stack size exceeded', however large the stack: the first
    remainder is [NaN], on which [gcd] never reaches its base case. *)
Theorem calculate_overflows_on_non_finite stack first n second rest :
  ToNumber first = Ret n ->
  (forall q, n <> Fin q) ->
  positive_integer second = true ->
  calculateHCF stack (VArr (first :: second :: rest))
  = Throw Msg.stack_overflow /\
  calculateLCM stack (VArr (first :: second :: rest))
  = Throw Msg.stack_overflow.
Proof.
  intros Hn Hinf Hsec.
  destruct (positive_integer_number second Hsec) as (q & -> & Hq).
  assert (Hg : gcd stack first (VNum (Fin q)) = Throw Msg.stack_overflow).
  { destruct stack as [|stack]; [reflexivity|].
    rewrite gcd_unfold. cbn [strict_eq_zero is_zero].
    destruct (Z.eqb_spec (Qnum q) 0); [contradiction|].
    unfold rem_values. rewrite Hn, ToNumber_VNum. cbn [bind].
    replace (js_rem n (Fin q)) with NaN
      by (destruct n; [now destruct (Hinf q0) | reflexivity ..]).
    apply gcd_NaN. }
  unfold calculateHCF, calculateLCM, array_reduce.
  cbn [List.length Nat.eqb reduce_from].
  unfold hcf_callback, lcm_callback, lcm, mul_values.
  rewrite Hsec, Hg, Hn, ToNumber_VNum. split; reflexivity.
Qed.

Lemma calculate_overflows_on_non_finite_witness :
  calculateHCF 100 (VArr [VObj []; VInt 6; VInt 9])
  = Throw Msg.stack_overflow /\
  calculateLCM 100 (VArr [VObj []; VInt 6; VInt 9])
  = Throw Msg.stack_overflow.
Proof.
  apply (calculate_overflows_on_non_finite 100 (VObj []) NaN (VInt 6)
           [VInt 9]).
  - reflexivity.
  - discriminate.
  - reflexivity.
Defined.

(** ** generateFibonacci: the terms and their consistency *)

Lemma fib_terms_prefix m n :
  (m <= n)%nat -> firstn m (fib_terms n) = fib_terms m.
Proof.
  intros Hmn. destruct m as [|[|m]]; [reflexivity | |].
  - destruct n as [|[|n]]; [lia | reflexivity |].
    rewrite fib_terms_full by lia.
    now destruct (fib_push_app (S (S n) - 2) [int 0; int 1]) as (t & -> & _).
  - rewrite (fib_terms_full n), (fib_terms_full (S (S m))) by lia.
    replace (n - 2)%nat with ((S (S m) - 2) + (n - S (S m)))%nat by lia.
    rewrite fib_push_add.
    destruct (fib_push_app (n - S (S m))
                (fib_push (S (S m) - 2) [int 0; int 1])) as (t & -> & _).
    rewrite firstn_app, fib_push_length. cbn [List.length].
    replace (S (S m) - (2 + (S (S m) - 2)))%nat with 0%nat by lia.
    rewrite firstn_O, app_nil_r. apply firstn_all2.
    rewrite fib_push_length. cbn [List.length]. lia.
Qed.

Lemma fib_terms_fibonacci n k :
  (k < n)%nat -> (k <= 78)%nat -> nth k (fib_terms n) NaN = int (fibonacci k).
Proof.
  intros Hk H78.
  rewrite <- (firstn_skipn (S k) (fib_terms n)).
  rewrite fib_terms_prefix, fib_terms_exact by lia.
  rewrite app_nth1 by (rewrite fibs_length; lia).
  rewrite <- get_nth. apply get_fibs. lia.
Qed.

(** X3.  The answers for different counts agree: [generateFibonacci(m)] is the
    first [m] terms of [generateFibonacci(n)] whenever [0 <= m <= n] and
    [n] is below 2^32, the bound on the length of an array; the term at
    index [k] is the [k]-th Fibonacci number up to index 78, the last one
    that is computed without rounding. *)
Theorem generateFibonacci_prefix m n :
  0 <= m <= n -> n < 2 ^ 32 ->
  exists tm tn : list number,
    generateFibonacci (VInt m) = Ret (VArr (map VNum tm)) /\
    generateFibonacci (VInt n) = Ret (VArr (map VNum tn)) /\
    tm = firstn (Z.to_nat m) tn /\
    (forall k, (k < Z.to_nat n)%nat -> (k <= 78)%nat ->
       nth k tn NaN = int (fibonacci k)).
Proof.
  intros Hmn _.
  exists (fib_terms (Z.to_nat m)), (fib_terms (Z.to_nat n)).
  split; [|split; [|split]].
  - apply generateFibonacci_value; [|lia].
    exists (inject_Z m). split; reflexivity.
  - apply generateFibonacci_value; [|lia].
    exists (inject_Z n). split; reflexivity.
  - symmetry. apply fib_terms_prefix. lia.
  - intros k Hk H78. now apply fib_terms_fibonacci.
Qed.

Lemma generateFibonacci_prefix_witness :
  exists tm tn : list number,
    generateFibonacci (VInt 4) = Ret (VArr (map VNum tm)) /\
    generateFibonacci (VInt 9) = Ret (VArr (map VNum tn)) /\
    tm = firstn (Z.to_nat 4) tn /\
    (forall k, (k < Z.to_nat 9)%nat -> (k <= 78)%nat ->
       nth k tn NaN = int (fibonacci k)).
Proof.
  apply (generateFibonacci_prefix 4 9); [lia | reflexivity].
Defined.

(** ** filterPrimes: what is kept *)

Lemma array_filter_kept elems : forall kept,
  array_filter prime_callback elems = Ret kept ->
  kept = filter (fun e => match as_integer e with
                          | Some z => isPrime z
                          | None => false
                          end) elems /\
  Forall (fun e => as_integer e <> None) elems.
Proof.
  induction elems as [|e elems IH]; intros kept H.
  - injection H as <-. split; constructor.
  - cbn [array_filter] in H. unfold prime_callback at 1 in H.
    destruct (as_integer e) as [z|] eqn:E; [|discriminate H].
    cbn [bind] in H.
    destruct (array_filter prime_callback elems) as [kept'|m];
      [|discriminate H].
    cbn [bind] in H. injection H as <-.
    destruct (IH kept' eq_refl) as [-> Hall].
    split; [|constructor; [congruence | exact Hall]].
    cbn [filter]. now rewrite E.
Qed.

Lemma array_filter_integers elems :
  Forall (fun e => as_integer e <> None) elems ->
  array_filter prime_callback elems
  = Ret (filter (fun e => match as_integer e with
                          | Some z => isPrime z
                          | None => false
                          end) elems).
Proof.
  induction 1 as [|e elems He _ IH]; [reflexivity|].
  cbn [array_filter filter]. unfold prime_callback at 1.
  destruct (as_integer e) as [z|]; [|contradiction].
  cbn [bind]. rewrite IH. cbn [bind]. now destruct (isPrime z).
Qed.

(** X2.  Whenever [filterPrimes] returns, it returns an array that holds exactly
    the elements of the input that are prime integers, is no longer than the
    input, and is left unchanged by filtering it again. *)
Theorem filterPrimes_kept arr out :
  filterPrimes arr = Ret out ->
  exists elems kept,
    arr = VArr elems /\ out = VArr kept /\
    (forall v, In v kept <->
               In v elems /\ exists z, is_integer_value v z /\ Z.prime z) /\
    (List.length kept <= List.length elems)%nat /\
    filterPrimes out = Ret out.
Proof.
  intros H. destruct arr as [| | | | |elems|]; try discriminate H.
  rewrite filterPrimes_unfold in H.
  destruct (array_filter prime_callback elems) as [kept|m] eqn:E;
    [|discriminate H].
  cbn [bind] in H. injection H as <-.
  destruct (array_filter_kept elems kept E) as [-> Hall].
  set (p := fun e => match as_integer e with
                     | Some z => isPrime z
                     | None => false
                     end) in *.
  exists elems, (filter p elems).
  split; [reflexivity|]. split; [reflexivity|]. split; [|split].
  - intros v. rewrite filter_In. unfold p.
    split; intros [Hin Hp]; (split; [exact Hin|]).
    + destruct (as_integer v) as [z|] eqn:Ev; [|discriminate Hp].
      exists z. split; [now apply as_integer_spec | now apply isPrime_prime].
    + destruct Hp as (z & Hz & Hprime). apply as_integer_spec in Hz.
      rewrite Hz. now apply isPrime_prime.
  - apply filter_length_le.
  - rewrite filterPrimes_unfold, array_filter_integers.
    + cbn [bind]. do 2 f_equal. apply forallb_filter_id.
      apply forallb_forall. intros v Hv. now apply filter_In in Hv.
    + apply Forall_forall. intros v Hv. apply filter_In in Hv.
      rewrite Forall_forall in Hall. apply Hall, Hv.
Qed.

Lemma filterPrimes_kept_witness :
  exists elems kept,
    ints [4; 5; 5; 9; 11] = VArr elems /\ ints [5; 5; 11] = VArr kept /\
    (forall v, In v kept <->
               In v elems /\ exists z, is_integer_value v z /\ Z.prime z) /\
    (List.length kept <= List.length elems)%nat /\
    filterPrimes (ints [5; 5; 11]) = Ret (ints [5; 5; 11]).
Proof.
  apply (filterPrimes_kept (ints [4; 5; 5; 9; 11]) (ints [5; 5; 11])).
  reflexivity.
Defined.

(** X1.  [isPrime] decides primality: it answers [true] on the primes and
    [false] on every other integer, the negative ones, 0 and 1 included. *)
Theorem isPrime_decides_primality x :
  (isPrime x = true <-> Z.prime x) /\ (isPrime x = false <-> ~ Z.prime x).
Proof.
  pose proof (isPrime_prime x) as H. split; [exact H|].
  destruct (isPrime x); split; intros H'; try discriminate.
  - exfalso. apply H'. now apply H.
  - intros Hp. apply H in Hp. discriminate.
  - reflexivity.
Qed.

(** * Further properties of the AI delegate *)

Lemma until_space_no_space s :
  Forall (fun c => is_space c = false) (until_space s).
Proof.
  induction s as [|c s IH]; [constructor|]. cbn [until_space].
  destruct (is_space c) eqn:E; constructor; assumption.
Qed.

Lemma until_space_incl s c : In c (until_space s) -> In c s.
Proof.
  induction s as [|d s IH]; [intros []|]. cbn [until_space].
  destruct (is_space d); [intros []|].
  intros [<-|H]; [now left | right; now apply IH].
Qed.

Lemma trimStart_incl s c : In c (trimStart s) -> In c s.
Proof.
  induction s as [|d s IH]; [intros []|]. cbn [trimStart].
  destruct (is_space d); [|exact (fun H => H)].
  intros H. right. now apply IH.
Qed.

Lemma first_token_clean raw :
  Forall (fun c => is_space c = false /\ is_marker c = false)
    (first_token (strip_markers raw)).
Proof.
  apply Forall_forall. intros c Hc. split.
  - pose proof (until_space_no_space (trimStart (strip_markers raw))) as H.
    rewrite Forall_forall in H. now apply H.
  - apply until_space_incl, trimStart_incl, filter_In in Hc.
    destruct Hc as [_ Hc]. now destruct (is_marker c).
Qed.

Lemma until_space_id w :
  Forall (fun c => is_space c = false) w -> until_space w = w.
Proof.
  induction 1 as [|c w Hc _ IH]; [reflexivity|].
  cbn [until_space]. now rewrite Hc, IH.
Qed.

Lemma first_token_id w :
  Forall (fun c => is_space c = false /\ is_marker c = false) w ->
  first_token (strip_markers w) = w.
Proof.
  intros H. unfold first_token, strip_markers.
  rewrite forallb_filter_id.
  - replace (trimStart w) with w.
    + apply until_space_id. eapply Forall_impl; [|exact H]. now intros c [].
    + destruct H as [|c w [Hc _] _]; [reflexivity|].
      cbn [trimStart]. now rewrite Hc.
  - apply forallb_forall. intros c Hc. rewrite Forall_forall in H.
    destruct (H c Hc) as [_ ->]. reflexivity.
Qed.

(** X12.  An answer that normalization returns is a single word: not empty, with
    no white space and none of the characters it strips; and normalizing it
    again gives it back. *)
Theorem normalize_word raw word :
  normalize raw = Ret word ->
  word <> [] /\
  Forall (fun c => is_space c = false /\ is_marker c = false) word /\
  normalize word = Ret word.
Proof.
  rewrite normalize_first_token.
  destruct (is_empty (first_token (strip_markers raw))) eqn:E;
    [discriminate|].
  intros [= <-]. pose proof (first_token_clean raw) as Hc.
  set (w := first_token (strip_markers raw)) in *.
  split; [now apply is_empty_false|]. split; [exact Hc|].
  rewrite normalize_first_token, (first_token_id w Hc), E. reflexivity.
Qed.

Lemma normalize_word_witness :
  str "Paris" <> [] /\
  Forall (fun c => is_space c = false /\ is_marker c = false) (str "Paris") /\
  normalize (str "Paris") = Ret (str "Paris").
Proof.
  apply (normalize_word (str " `Paris`, of course! ") (str "Paris")).
  reflexivity.
Defined.

(** X13.  [getAIResponse] succeeds only in one way: the question is a non-blank
    string, the capability was called once with the prompt built from it and
    resolved with a text, and the answer is the first word of that text
    without markers and punctuation. *)
Theorem getAIResponse_success generate question answer :
  snd (getAIResponse generate question) = Ret answer ->
  exists q text word,
    question = VStr q /\ trim q <> [] /\
    fst (getAIResponse generate question) = [Generate (prompt_of q)] /\
    generate (prompt_of q) = GenText text /\
    answer = VStr word /\
    word = first_token (strip_markers text) /\ word <> [].
Proof.
  intros H.
  destruct question as [| | | |q| |]; try discriminate H.
  destruct (is_empty (trim q)) eqn:Hq.
  { cbn in H. rewrite Hq in H. discriminate H. }
  apply is_empty_false in Hq.
  rewrite (getAIResponse_valid generate q Hq) in *. cbn [fst snd] in *.
  unfold ask in H.
  destruct (generate (prompt_of q)) as [m| |m|text] eqn:G;
    try discriminate H.
  rewrite normalize_first_token in H.
  destruct (is_empty (first_token (strip_markers text))) eqn:E;
    [discriminate H|].
  injection H as <-.
  exists q, text, (first_token (strip_markers text)).
  repeat split; try assumption. now apply is_empty_false.
Qed.

Lemma getAIResponse_success_witness :
  exists q text word,
    VStr (str "Capital of France?") = VStr q /\ trim q <> [] /\
    fst (getAIResponse (fun _ => GenText (str "**Paris.**"))
           (VStr (str "Capital of France?")))
    = [Generate (prompt_of q)] /\
    (fun _ : jsstring => GenText (str "**Paris.**")) (prompt_of q)
    = GenText text /\
    VStr (str "Paris") = VStr word /\
    word = first_token (strip_markers text) /\ word <> [].
Proof.
  apply (getAIResponse_success (fun _ => GenText (str "**Paris.**"))
           (VStr (str "Capital of France?")) (VStr (str "Paris"))).
  reflexivity.
Defined.

(** * Further properties of the handler *)

Lemma index_key_head u :
  match str (NilEmpty.string_of_uint u) with
  | [] => True
  | c :: _ => (48 <= c <= 57)%N
  end.
Proof. destruct u; cbn; try exact I; lia. Qed.

Lemma index_key_not_valid u :
  includes validKeys (str (NilEmpty.string_of_uint u)) = false.
Proof.
  destruct (includes validKeys (str (NilEmpty.string_of_uint u))) eqn:E;
    [|reflexivity].
  apply includes_In in E. pose proof (index_key_head u) as H.
  cbn in E. decompose [or] E; try contradiction;
    match goal with Heq : _ = str _ |- _ => rewrite <- Heq in H end;
    cbn in H; lia.
Qed.

Lemma index_keys_not_valid n : filter (includes validKeys) (index_keys n) = [].
Proof.
  unfold index_keys. induction (seq 0 n) as [|i l IH]; [reflexivity|].
  cbn [map filter]. now rewrite index_key_not_valid.
Qed.

(** X14.  A body that is not a JSON object is never dispatched: an array, a
    string, a number or a boolean is answered like an object without
    recognized key, and a missing body with the [TypeError] of
    [Object.keys]; in each case with status 400 and nothing computed. *)
Theorem handler_rejects_non_object email stack generate body :
  (forall fields, body <> VObj fields) ->
  handler email stack generate body =
  ([], {| status := 400; is_success := false; official_email := email;
          data := None;
          error := Some match body with
                        | VUndefined | VNull => Msg.keys_of_nullish
                        | _ => Msg.no_key
                        end |}).
Proof.
  intros H. unfold handler, try_block.
  destruct body as [| | | | | |fields]; cbn [object_keys];
    rewrite ?index_keys_not_valid; try reflexivity.
  now destruct (H fields).
Qed.

Lemma handler_rejects_non_object_witness :
  handler (Some (str "me@example.org")) 100 (fun _ => GenNoResponse)
    (VArr [obj [("fibonacci"%string, VInt 5)]])
  = ([], {| status := 400; is_success := false;
            official_email := Some (str "me@example.org");
            data := None; error := Some Msg.no_key |}).
Proof.
  apply (handler_rejects_non_object (Some (str "me@example.org")) 100
           (fun _ => GenNoResponse)
           (VArr [obj [("fibonacci"%string, VInt 5)]])).
  intros fields. discriminate.
Defined.

Lemma handler_one_events email stack generate body keys key :
  object_keys body = Ret keys ->
  filter (includes validKeys) keys = [key] ->
  fst (handler email stack generate body) =
  match run_operation stack generate body key with
  | Some (events, _) => events
  | None => []
  end.
Proof.
  intros K F. rewrite (handler_one _ _ _ _ keys key K F).
  destruct (run_operation stack generate body key) as [[ev [d|m]]|];
    reflexivity.
Qed.

(** X15.  The text-generation capability is called only for a body whose one
    recognized key is [AI] and whose value under it is a non-blank string;
    then it is called exactly once, with the prompt built from that string,
    and after [getAIResponse] was entered. *)
Theorem handler_generates_only_for_AI email stack generate body p :
  In (Generate p) (fst (handler email stack generate body)) ->
  exists keys q,
    object_keys body = Ret keys /\
    filter (includes validKeys) keys = [str "AI"] /\
    get_prop body (str "AI") = VStr q /\ trim q <> [] /\
    fst (handler email stack generate body)
    = [Enter "getAIResponse" (VStr q); Generate (prompt_of q)] /\
    p = prompt_of q.
Proof.
  destruct (object_keys body) as [keys|m] eqn:K;
    [|unfold handler, try_block; rewrite K; intros []].
  destruct (filter (includes validKeys) keys) as [|key [|key' rest]] eqn:F;
    [unfold handler, try_block; rewrite K, F; intros [] | |
     unfold handler, try_block; rewrite K, F; intros []].
  rewrite (handler_one_events _ _ _ _ keys key K F).
  destruct (jsstring_eqb key (str "AI")) eqn:E.
  - apply jsstring_eqb_eq in E. subst key. rewrite run_operation_AI.
    destruct (get_prop body (str "AI")) as [| | | |q| |] eqn:Q;
      try (cbn; intros [H|[]]; discriminate H).
    destruct (is_empty (trim q)) eqn:Hq.
    { cbn. rewrite Hq. intros [H|[]]. discriminate H. }
    apply is_empty_false in Hq.
    rewrite (getAIResponse_valid generate q Hq).
    intros [H|[H|[]]]; [discriminate H|]. injection H as <-.
    exists keys, q. repeat split; assumption.
  - unfold run_operation. rewrite E.
    repeat match goal with
           | |- context [jsstring_eqb key ?name] =>
               destruct (jsstring_eqb key name)
           end; try (intros [H|[]]; discriminate H); intros [].
Qed.

Lemma handler_generates_only_for_AI_witness :
  exists keys q,
    object_keys (obj [("AI"%string, VStr (str "Capital of France?"))])
    = Ret keys /\
    filter (includes validKeys) keys = [str "AI"] /\
    get_prop (obj [("AI"%string, VStr (str "Capital of France?"))]) (str "AI")
    = VStr q /\ trim q <> [] /\
    fst (handler None 100 (fun _ => GenNoResponse)
           (obj [("AI"%string, VStr (str "Capital of France?"))]))
    = [Enter "getAIResponse" (VStr q); Generate (prompt_of q)] /\
    prompt_of (str "Capital of France?") = prompt_of q.
Proof.
  apply (handler_generates_only_for_AI None 100 (fun _ => GenNoResponse)
           (obj [("AI"%string, VStr (str "Capital of France?"))])
           (prompt_of (str "Capital of France?"))).
  right. left. reflexivity.
Defined.

Lemma generateFibonacci_rejects v :
  (forall z, 0 <= z -> ~ is_integer_value v z) ->
  generateFibonacci v = Throw Msg.fibonacci_input.
Proof.
  intros Hv. unfold generateFibonacci.
  destruct (as_integer v) as [n|] eqn:E; [|reflexivity].
  destruct (Z.ltb_spec n 0); [reflexivity|].
  apply as_integer_spec in E. now apply Hv in E.
Qed.

(** X16.  A recognized key with a value of the wrong shape (a missing count, a
    text in place of a list, [null], ...) is answered 400 with the message
    of the function the key selects; the other keys of the body play no
    part. *)
Theorem handler_wrong_shape email stack generate body keys key :
  object_keys body = Ret keys ->
  filter (includes validKeys) keys = [key] ->
  let answer m :=
    {| status := 400; is_success := false; official_email := email;
       data := None; error := Some m |} in
  (key = str "fibonacci" ->
   (forall z, 0 <= z -> ~ is_integer_value (get_prop body key) z) ->
   snd (handler email stack generate body) = answer Msg.fibonacci_input) /\
  (key = str "prime" ->
   isArray (get_prop body key) = false ->
   snd (handler email stack generate body) = answer Msg.not_array) /\
  (key = str "lcm" \/ key = str "hcf" ->
   (forall x rest, get_prop body key <> VArr (x :: rest)) ->
   snd (handler email stack generate body) = answer Msg.empty_array) /\
  (key = str "AI" ->
   (forall q, get_prop body key = VStr q -> trim q = []) ->
   snd (handler email stack generate body) = answer Msg.question).
Proof.
  intros K F answer. rewrite (handler_one _ _ _ _ keys key K F).
  split; [|split; [|split]].
  - intros -> H.
    change (run_operation stack generate body (str "fibonacci"))
      with (Some ([Enter "generateFibonacci" (get_prop body (str "fibonacci"))],
                  generateFibonacci (get_prop body (str "fibonacci")))).
    now rewrite (generateFibonacci_rejects _ H).
  - intros -> H.
    change (run_operation stack generate body (str "prime"))
      with (Some ([Enter "filterPrimes" (get_prop body (str "prime"))],
                  filterPrimes (get_prop body (str "prime")))).
    destruct (get_prop body (str "prime")); try reflexivity. discriminate H.
  - intros [-> | ->] H;
      destruct (calculate_non_array stack _ H) as [Eh El].
    + change (run_operation stack generate body (str "lcm"))
        with (Some ([Enter "calculateLCM" (get_prop body (str "lcm"))],
                    calculateLCM stack (get_prop body (str "lcm")))).
      now rewrite El.
    + change (run_operation stack generate body (str "hcf"))
        with (Some ([Enter "calculateHCF" (get_prop body (str "hcf"))],
                    calculateHCF stack (get_prop body (str "hcf")))).
      now rewrite Eh.
  - intros -> H. rewrite run_operation_AI.
    now rewrite (getAIResponse_invalid generate _ H).
Qed.

Lemma handler_wrong_shape_witness :
  snd (handler None 100 (fun _ => GenNoResponse)
         (obj [("note", VStr (str "x")); ("hcf", VStr (str "12,18"))]%string))
  = {| status := 400; is_success := false; official_email := None;
       data := None; error := Some Msg.empty_array |}.
Proof.
  apply (proj1 (proj2 (proj2
           (handler_wrong_shape None 100 (fun _ => GenNoResponse)
              (obj [("note", VStr (str "x")); ("hcf", VStr (str "12,18"))]%string)
              [str "note"; str "hcf"] (str "hcf") eq_refl eq_refl)))).
  - right. reflexivity.
  - intros x rest. discriminate.
Defined.

(** X8.  For two positive integers whose product is at most 2^53 the two
    results multiply to the product of the inputs:
    [calculateHCF([a, b]) * calculateLCM([a, b]) = a * b]. *)
Theorem calculateHCF_times_calculateLCM stack a b :
  0 < a -> 0 < b -> frames_for b <= Z.of_nat stack -> a * b <= 2 ^ 53 ->
  exists g l,
    calculateHCF stack (ints [a; b]) = Ret (VInt g) /\
    calculateLCM stack (ints [a; b]) = Ret (VInt l) /\
    g * l = a * b.
Proof.
  intros Ha Hb Hst Hfit. exists (euclid a b), (lcm_step a b).
  split; [|split].
  - apply (calculateHCF_ints stack a [b]); repeat constructor; assumption.
  - apply (calculateLCM_ints stack a [b]); try (repeat constructor; assumption).
    cbn [products_fit]. rewrite andb_true_r. apply Z.leb_le. nia.
  - unfold lcm_step. destruct (euclid_divide_mul a b) as [k Hk].
    rewrite Hk, Z.div_mul by (apply euclid_nonzero; lia). lia.
Qed.

Lemma calculateHCF_times_calculateLCM_witness :
  exists g l,
    calculateHCF 100 (ints [12; 18]) = Ret (VInt g) /\
    calculateLCM 100 (ints [12; 18]) = Ret (VInt l) /\
    g * l = 12 * 18.
Proof.
  apply (calculateHCF_times_calculateLCM 100 12 18);
    try lia; vm_compute; discriminate.
Defined.
